(** * Groups panel (src/components/Groups.tsx): a shallow embedding

    The component keeps eight pieces of React state and talks to a
    hosted backend (authentication, four tables).  Handlers are modelled
    as computations in a small state-and-exception monad over a [World]:
    the component state plus the log of backend operations issued so far.
    A handler reads the values captured by its closure (the rendered
    state, passed as [snap]) and writes through the [set...] setters, as
    the source does.  What the backend answers is not decided by the
    component: it is an argument, the record [Backend]. *)

From Stdlib Require Import List Bool ZArith NArith String Ascii.
Import ListNotations.

(** ** JavaScript strings

    A JavaScript string is a sequence of UTF-16 code units; [===] on
    strings compares the sequences. *)

Definition jsstring : Type := list N.

Definition js (s : string) : jsstring :=
  map N_of_ascii (list_ascii_of_string s).

Fixpoint str_eqb (a b : jsstring) : bool :=
  match a, b with
  | [], [] => true
  | x :: a', y :: b' => N.eqb x y && str_eqb a' b'
  | _, _ => false
  end.

(** Truthiness of a string value: every string but the empty one. *)
Definition truthy_str (s : jsstring) : bool :=
  match s with
  | [] => false
  | _ :: _ => true
  end.

(** The code units [String.prototype.trim] strips: ECMAScript's
    WhiteSpace (TAB, VT, FF, ZWNBSP and the space separators) and
    LineTerminator (LF, CR, LS, PS).  All of them are in the basic plane,
    so the test is on single code units. *)
Definition is_js_whitespace (c : N) : bool :=
  ((c =? 9) || (c =? 10) || (c =? 11) || (c =? 12) || (c =? 13)
   || (c =? 32) || (c =? 160) || (c =? 5760)
   || ((8192 <=? c) && (c <=? 8202))
   || (c =? 8232) || (c =? 8233) || (c =? 8239) || (c =? 8287)
   || (c =? 12288) || (c =? 65279))%N.

Fixpoint trimStart (s : jsstring) : jsstring :=
  match s with
  | [] => []
  | c :: s' => if is_js_whitespace c then trimStart s' else s
  end.

Definition trimEnd (s : jsstring) : jsstring :=
  rev (trimStart (rev s)).

Definition trim (s : jsstring) : jsstring :=
  trimEnd (trimStart s).

(** ** Data model (the [Player] and [Group] types of the source) *)

(** An optional string property that the code may also set to [null]:
    [avatar_url?: string], overwritten with [... || null]. *)
Inductive OptStr : Type :=
| Absent
| Null
| Str (s : jsstring).

Record Player : Type := mkPlayer {
  p_id : jsstring;
  p_user_id : option jsstring;     (* [None]: the column is null *)
  p_name : jsstring;
  p_avatar_url : OptStr
}.

(** The [players ( id, name )] object embedded in a join row. *)
Record JoinedPlayer : Type := mkJoinedPlayer {
  jp_id : jsstring;
  jp_name : jsstring
}.

(** One element of the embedded [group_players ( player_id, players (...) )]. *)
Record GroupPlayerRow : Type := mkGroupPlayerRow {
  gp_player_id : jsstring;
  gp_players : option JoinedPlayer
}.

(** A group as the two read queries return it. *)
Record RawGroup : Type := mkRawGroup {
  rg_id : Z;
  rg_name : jsstring;
  rg_owner_id : option jsstring;
  rg_created_at : option jsstring;
  rg_group_players : option (list GroupPlayerRow)
}.

(** A row of the member query: [group_id, groups ( ... )].  The embedded
    to-one relation is an object or [null]. *)
Record MemberRow : Type := mkMemberRow {
  mr_group_id : Z;
  mr_groups : option RawGroup
}.

(** A group as stored in [userGroups]: [{ ...group, players }]. *)
Record Group : Type := mkGroup {
  g_id : Z;
  g_name : jsstring;
  g_owner_id : option jsstring;
  g_created_at : option jsstring;
  g_group_players : option (list GroupPlayerRow);
  g_players : list (option JoinedPlayer)
}.

(** The row of the users table read for an avatar: [select('avatar_url')]. *)
Record UserRow : Type := mkUserRow {
  u_avatar_url : option jsstring
}.

(** ** Component state: the eight [useState] cells *)

Record UiState : Type := mkUiState {
  isModalOpen : bool;
  groupName : jsstring;
  errorMessage : jsstring;
  searchQuery : jsstring;
  players : list Player;
  selectedPlayers : list Player;
  loading : bool;
  userGroups : list Group
}.

Definition initialState : UiState :=
  {| isModalOpen := false; groupName := []; errorMessage := [];
     searchQuery := []; players := []; selectedPlayers := [];
     loading := false; userGroups := [] |}.

(** ** Backend operations *)

Inductive Table : Type := T_groups | T_group_players | T_players | T_users.

Inductive Filter : Type :=
| NoFilter
| FEq (column : jsstring) (value : jsstring)
| FILike (column : jsstring) (pattern : jsstring).

Inductive Row : Type :=
| GroupRow (name : jsstring) (owner_id : jsstring)
| GroupPlayerLink (group_id : Z) (player_id : jsstring).

(** What the client library can send.  The component uses the first
    three only; the others are the rest of the query builder. *)
Inductive BackendOp : Type :=
| AuthGetSession
| Select (t : Table) (f : Filter)
| Insert (t : Table) (rows : list Row)
| Update (t : Table) (f : Filter) (row : Row)
| Upsert (t : Table) (rows : list Row)
| Delete (t : Table) (f : Filter).

(** The answer of [supabase.auth.getSession()]. *)
Inductive SessionResult : Type :=
| SessionError
| NoSession
| Session (user_id : jsstring).

(** The answer of [insert(...).select()] on groups: an error, or the
    inserted rows as returned. *)
Inductive GroupInsertResult : Type :=
| GroupInsertError
| GroupInsertData (rows : list RawGroup).

(** The answer of the players query. *)
Inductive PlayersResult : Type :=
| PlayersError
| PlayersData (data : list Player).

(** What the backend answers during one run of a handler.  A read query
    yields its [data] ([None] is [null], which is what comes with an
    error); the join insert yields whether [error] is set. *)
Record Backend : Type := mkBackend {
  be_session : SessionResult;
  be_owner_groups : jsstring -> option (list RawGroup);
  be_member_groups : jsstring -> option (list MemberRow);
  be_players : Filter -> PlayersResult;
  be_user : jsstring -> option UserRow;
  be_insert_group : jsstring -> jsstring -> GroupInsertResult;
  be_insert_links : list Row -> bool
}.

(** ** The handler monad *)

Record World : Type := mkWorld {
  ui : UiState;
  ops : list BackendOp
}.

(** Normal completion or a thrown exception. *)
Inductive Res (A : Type) : Type :=
| Ok (a : A)
| Thrown.
Arguments Ok {A} a.
Arguments Thrown {A}.

Definition Handler (A : Type) : Type := World -> Res A * World.

Definition ret {A} (a : A) : Handler A := fun w => (Ok a, w).

Definition bind {A B} (m : Handler A) (k : A -> Handler B) : Handler B :=
  fun w =>
    match m w with
    | (Ok a, w') => k a w'
    | (Thrown, w') => (Thrown, w')
    end.

Definition throw {A} : Handler A := fun w => (Thrown, w).

(** [try { body } catch { handler }] *)
Definition try_catch (body handler : Handler unit) : Handler unit :=
  fun w =>
    match body w with
    | (Ok a, w') => (Ok a, w')
    | (Thrown, w') => handler w'
    end.

(** [try { body } catch { handler } finally { fin }] where neither
    [handler] nor [fin] throws. *)
Definition try_catch_finally (body handler fin : Handler unit) : Handler unit :=
  bind (try_catch body handler) (fun _ => fin).

(** A call to an async function whose promise is dropped: a rejection
    is not seen by the caller. *)
Definition detached (h : Handler unit) : Handler unit :=
  fun w => (Ok tt, snd (h w)).

(** Sending [op] and awaiting the answer [r]. *)
Definition request {A} (op : BackendOp) (r : A) : Handler A :=
  fun w => (Ok r, {| ui := ui w; ops := ops w ++ [op] |}).

Definition modify (f : UiState -> UiState) : Handler unit :=
  fun w => (Ok tt, {| ui := f (ui w); ops := ops w |}).

Declare Scope handler_scope.
Delimit Scope handler_scope with handler.
Notation "x <- m ;; k" := (bind m (fun x => k))
  (at level 61, m at next level, right associativity) : handler_scope.
Notation "m ;; k" := (bind m (fun _ => k))
  (at level 61, right associativity) : handler_scope.
Open Scope handler_scope.

(** The setters, each over the record update it performs. *)

Definition with_isModalOpen (b : bool) (s : UiState) : UiState :=
  {| isModalOpen := b; groupName := groupName s;
     errorMessage := errorMessage s; searchQuery := searchQuery s;
     players := players s; selectedPlayers := selectedPlayers s;
     loading := loading s; userGroups := userGroups s |}.

Definition setIsModalOpen (b : bool) : Handler unit :=
  modify (with_isModalOpen b).

Definition with_groupName (v : jsstring) (s : UiState) : UiState :=
  {| isModalOpen := isModalOpen s; groupName := v;
     errorMessage := errorMessage s; searchQuery := searchQuery s;
     players := players s; selectedPlayers := selectedPlayers s;
     loading := loading s; userGroups := userGroups s |}.

Definition setGroupName (v : jsstring) : Handler unit :=
  modify (with_groupName v).

Definition with_errorMessage (v : jsstring) (s : UiState) : UiState :=
  {| isModalOpen := isModalOpen s; groupName := groupName s;
     errorMessage := v; searchQuery := searchQuery s;
     players := players s; selectedPlayers := selectedPlayers s;
     loading := loading s; userGroups := userGroups s |}.

Definition setErrorMessage (v : jsstring) : Handler unit :=
  modify (with_errorMessage v).

Definition with_searchQuery (v : jsstring) (s : UiState) : UiState :=
  {| isModalOpen := isModalOpen s; groupName := groupName s;
     errorMessage := errorMessage s; searchQuery := v;
     players := players s; selectedPlayers := selectedPlayers s;
     loading := loading s; userGroups := userGroups s |}.

Definition setSearchQuery (v : jsstring) : Handler unit :=
  modify (with_searchQuery v).

Definition with_players (v : list Player) (s : UiState) : UiState :=
  {| isModalOpen := isModalOpen s; groupName := groupName s;
     errorMessage := errorMessage s; searchQuery := searchQuery s;
     players := v; selectedPlayers := selectedPlayers s;
     loading := loading s; userGroups := userGroups s |}.

Definition setPlayers (v : list Player) : Handler unit :=
  modify (with_players v).

Definition with_selectedPlayers (v : list Player) (s : UiState) : UiState :=
  {| isModalOpen := isModalOpen s; groupName := groupName s;
     errorMessage := errorMessage s; searchQuery := searchQuery s;
     players := players s; selectedPlayers := v;
     loading := loading s; userGroups := userGroups s |}.

Definition setSelectedPlayers (v : list Player) : Handler unit :=
  modify (with_selectedPlayers v).

Definition with_loading (b : bool) (s : UiState) : UiState :=
  {| isModalOpen := isModalOpen s; groupName := groupName s;
     errorMessage := errorMessage s; searchQuery := searchQuery s;
     players := players s; selectedPlayers := selectedPlayers s;
     loading := b; userGroups := userGroups s |}.

Definition setLoading (b : bool) : Handler unit :=
  modify (with_loading b).

Definition with_userGroups (v : list Group) (s : UiState) : UiState :=
  {| isModalOpen := isModalOpen s; groupName := groupName s;
     errorMessage := errorMessage s; searchQuery := searchQuery s;
     players := players s; selectedPlayers := selectedPlayers s;
     loading := loading s; userGroups := v |}.

Definition setUserGroups (v : list Group) : Handler unit :=
  modify (with_userGroups v).

(** Running a handler of the current render: its closure holds the
    state as rendered. *)
Definition run (h : UiState -> Handler unit) (w : World) : World :=
  snd (h (ui w) w).

(** ** Pure helpers of [fetchUserGroups]: array methods whose callback
    may throw *)

Definition res_bind {A B} (r : Res A) (k : A -> Res B) : Res B :=
  match r with
  | Ok a => k a
  | Thrown => Thrown
  end.

Definition lift_res {A} (r : Res A) : Handler A := fun w => (r, w).

(** [Array.prototype.find]: the first element on which the callback
    answers true, [None] for [undefined]. *)
Fixpoint array_find {A} (f : A -> Res bool) (l : list A) : Res (option A) :=
  match l with
  | [] => Ok None
  | x :: l' =>
      match f x with
      | Thrown => Thrown
      | Ok true => Ok (Some x)
      | Ok false => array_find f l'
      end
  end.

(** [Array.prototype.reduce] with an initial value. *)
Fixpoint array_reduce {A B} (f : B -> A -> Res B) (l : list A) (acc : B) : Res B :=
  match l with
  | [] => Ok acc
  | x :: l' => res_bind (f acc x) (array_reduce f l')
  end.

(** [Array.prototype.map]. *)
Fixpoint array_map {A B} (f : A -> Res B) (l : list A) : Res (list B) :=
  match l with
  | [] => Ok []
  | x :: l' =>
      res_bind (f x) (fun y => res_bind (array_map f l') (fun ys => Ok (y :: ys)))
  end.

(** The callback [(g) => g.id === group.id]: reading [id] of [null]
    throws a TypeError. *)
Definition same_id (group g : option RawGroup) : Res bool :=
  match g, group with
  | Some g', Some group' => Ok (rg_id g' =? rg_id group')%Z
  | _, _ => Thrown
  end.

(** Truthiness of what [find] gave: [undefined] and [null] are falsy. *)
Definition truthy_found (r : option (option RawGroup)) : bool :=
  match r with
  | Some (Some _) => true
  | _ => false
  end.

(** The reducer: [if (!acc.find(...)) acc.push(group); return acc]. *)
Definition dedup_step (acc : list (option RawGroup)) (group : option RawGroup)
  : Res (list (option RawGroup)) :=
  res_bind (array_find (same_id group) acc)
    (fun r => Ok (if negb (truthy_found r) then acc ++ [group] else acc)).

Definition uniqueGroups (allGroups : list (option RawGroup))
  : Res (list (option RawGroup)) :=
  array_reduce dedup_step allGroups [].

(** [playersInGroup]: the embedded join rows mapped to their player,
    or the empty array when [group_players] is missing. *)
Definition playersInGroup (g : RawGroup) : list (option JoinedPlayer) :=
  match rg_group_players g with
  | Some gps => map gp_players gps
  | None => []
  end.

(** The mapper [(group) => ({ ...group, players: playersInGroup })];
    [group.group_players] on [null] throws. *)
Definition spread_with_players (g : RawGroup) : Group :=
  {| g_id := rg_id g; g_name := rg_name g; g_owner_id := rg_owner_id g;
     g_created_at := rg_created_at g;
     g_group_players := rg_group_players g;
     g_players := playersInGroup g |}.

Definition group_with_players (group : option RawGroup) : Res Group :=
  match group with
  | None => Thrown
  | Some g => Ok (spread_with_players g)
  end.

Definition memberGroupList (memberGroups : option (list MemberRow))
  : list (option RawGroup) :=
  match memberGroups with
  | Some rows => map (@mr_groups) rows
  | None => []
  end.

Definition allGroups (ownerGroups : option (list RawGroup))
    (memberGroups : option (list MemberRow)) : list (option RawGroup) :=
  match ownerGroups with
  | Some og => map (@Some RawGroup) og ++ memberGroupList memberGroups
  | None => memberGroupList memberGroups
  end.

Definition groupsWithPlayers (ownerGroups : option (list RawGroup))
    (memberGroups : option (list MemberRow)) : Res (list Group) :=
  res_bind (uniqueGroups (allGroups ownerGroups memberGroups))
           (array_map group_with_players).

(** ** fetchUserGroups *)

Definition fetchUserGroups (be : Backend) : Handler unit :=
  sessionData <- request AuthGetSession (be_session be) ;;
  match sessionData with
  | SessionError => ret tt
  | NoSession => ret tt
  | Session userId =>
      ownerGroups <- request (Select T_groups (FEq (js "owner_id") userId))
                             (be_owner_groups be userId) ;;
      memberGroups <- request (Select T_group_players (FEq (js "player_id") userId))
                              (be_member_groups be userId) ;;
      groups <- lift_res (groupsWithPlayers ownerGroups memberGroups) ;;
      setUserGroups groups
  end.

(** ** fetchPlayers *)

(** [userData?.avatar_url || null] *)
Definition avatar_or_null (userData : option UserRow) : OptStr :=
  match userData with
  | Some u =>
      match u_avatar_url u with
      | Some s => if truthy_str s then Str s else Null
      | None => Null
      end
  | None => Null
  end.

Definition set_avatar_url (p : Player) (a : OptStr) : Player :=
  {| p_id := p_id p; p_user_id := p_user_id p; p_name := p_name p;
     p_avatar_url := a |}.

(** The per-player callback of [data.map(async (player) => ...)]. *)
Definition resolve_avatar (be : Backend) (player : Player) : Handler Player :=
  match p_user_id player with
  | Some uid =>
      if truthy_str uid then
        userData <- request (Select T_users (FEq (js "id") uid)) (be_user be uid) ;;
        ret (set_avatar_url player (avatar_or_null userData))
      else ret player
  | None => ret player
  end.

(** [Promise.all(data.map(f))]: the callbacks start in array order and
    the results keep that order. *)
Fixpoint promise_all_map {A B} (f : A -> Handler B) (l : list A) : Handler (list B) :=
  match l with
  | [] => ret []
  | x :: l' =>
      y <- f x ;;
      ys <- promise_all_map f l' ;;
      ret (y :: ys)
  end.

Definition players_filter (query : jsstring) : Filter :=
  if truthy_str query then FILike (js "name") (js "%" ++ query ++ js "%")
  else NoFilter.

Definition fetchPlayers (be : Backend) (query : jsstring) : Handler unit :=
  setLoading true ;;
  try_catch_finally
    (r <- request (Select T_players (players_filter query))
                  (be_players be (players_filter query)) ;;
     match r with
     | PlayersError => ret tt
     | PlayersData data =>
         playersWithAvatars <- promise_all_map (resolve_avatar be) data ;;
         setPlayers playersWithAvatars
     end)
    (ret tt)
    (setLoading false).

(** ** Modal and selection handlers *)

Definition openModal (be : Backend) (snap : UiState) : Handler unit :=
  setIsModalOpen true ;;
  detached (fetchPlayers be []).

Definition closeModal : Handler unit :=
  setIsModalOpen false ;;
  setGroupName [] ;;
  setSearchQuery [] ;;
  setSelectedPlayers [].

Definition handleSearchChange (be : Backend) (query : jsstring)
    (snap : UiState) : Handler unit :=
  setSearchQuery query ;;
  detached (fetchPlayers be query).

Definition handleAddPlayer (player : Player) (snap : UiState) : Handler unit :=
  if negb (existsb (fun p => str_eqb (p_id p) (p_id player)) (selectedPlayers snap))
  then setSelectedPlayers (selectedPlayers snap ++ [player])
  else ret tt.

Definition handleRemovePlayer (playerId : jsstring) (snap : UiState) : Handler unit :=
  setSelectedPlayers
    (filter (fun p => negb (str_eqb (p_id p) playerId)) (selectedPlayers snap)).

(** The inline [onChange] of the group-name input. *)
Definition onGroupNameChange (value : jsstring) (snap : UiState) : Handler unit :=
  setGroupName value ;;
  if truthy_str (errorMessage snap) then setErrorMessage [] else ret tt.

(** ** handleCreateGroup *)

Definition MSG_ENTER_NAME : jsstring := js "Please enter a group name.".
Definition MSG_DUPLICATE : jsstring :=
  js "You are already in a group with that name. Please choose a different name.".
Definition MSG_SESSION_ERROR : jsstring :=
  js "Error retrieving session. Please try again.".
Definition MSG_NO_SESSION : jsstring :=
  js "No session found. Please sign in again.".
Definition MSG_CREATE_FAILED : jsstring :=
  js "Failed to create group. Please try again.".
Definition MSG_PLAYERS_FAILED : jsstring :=
  js "Group created, but failed to add some players.".
Definition MSG_UNEXPECTED : jsstring :=
  js "An unexpected error occurred. Please try again.".

(** [selectedPlayers.map((player) => ({ group_id: groupId, player_id: player.id }))] *)
Definition groupPlayersData (groupId : Z) (selected : list Player) : list Row :=
  map (fun player => GroupPlayerLink groupId (p_id player)) selected.

Section WithStringBuiltins.

(** [String.prototype.toLowerCase] follows the Unicode case tables,
    which are not part of this repository: it is a parameter. *)
Variable toLowerCase : jsstring -> jsstring.

(** The test of the duplicate-name check:
    [userGroups.some((g) => g.name.trim().toLowerCase() === groupName.trim().toLowerCase())] *)
Definition duplicate_name (groups : list Group) (name : jsstring) : bool :=
  existsb
    (fun g => str_eqb (toLowerCase (trim (g_name g))) (toLowerCase (trim name)))
    groups.

(** The part of [handleCreateGroup] inside [try { ... }]. *)
Definition createGroup_body (be : Backend) (snap : UiState) (ownerId : jsstring)
  : Handler unit :=
  groupData <- request (Insert T_groups [GroupRow (groupName snap) ownerId])
                       (be_insert_group be (groupName snap) ownerId) ;;
  match groupData with
  | GroupInsertError => setErrorMessage MSG_CREATE_FAILED
  | GroupInsertData [] => throw          (* [groupData[0].id] on [undefined] *)
  | GroupInsertData (row :: _) =>
      let groupId := rg_id row in
      (if (0 <? List.length (selectedPlayers snap))%nat then
         joinError <- request
                        (Insert T_group_players
                                (groupPlayersData groupId (selectedPlayers snap)))
                        (be_insert_links be
                                (groupPlayersData groupId (selectedPlayers snap))) ;;
         if joinError then setErrorMessage MSG_PLAYERS_FAILED else ret tt
       else ret tt) ;;
      setErrorMessage [] ;;
      closeModal ;;
      detached (fetchUserGroups be)
  end.

Definition handleCreateGroup (be : Backend) (snap : UiState) : Handler unit :=
  if negb (truthy_str (groupName snap)) then
    setErrorMessage MSG_ENTER_NAME
  else if duplicate_name (userGroups snap) (groupName snap) then
    setErrorMessage MSG_DUPLICATE
  else
    setErrorMessage [] ;;
    sessionData <- request AuthGetSession (be_session be) ;;
    match sessionData with
    | SessionError => setErrorMessage MSG_SESSION_ERROR
    | NoSession => setErrorMessage MSG_NO_SESSION
    | Session ownerId =>
        try_catch (createGroup_body be snap ownerId)
                  (setErrorMessage MSG_UNEXPECTED)
    end.

(** ** Executions of the component

    What can happen to a mounted component: the mount effect and the
    user's actions.  Each event runs its handler to completion against
    the answers of the backend at that time. *)

Inductive Event : Type :=
| Mount                                   (* [useEffect]: fetchUserGroups *)
| ClickCreateGroupButton                  (* openModal *)
| ClickCancel                             (* closeModal *)
| TypeGroupName (value : jsstring)
| TypeSearch (query : jsstring)           (* handleSearchChange *)
| ClickPlayer (player : Player)           (* handleAddPlayer *)
| ClickRemove (playerId : jsstring)       (* handleRemovePlayer *)
| ClickSubmit.                            (* handleCreateGroup *)

Definition handler_of (be : Backend) (e : Event) : UiState -> Handler unit :=
  match e with
  | Mount => fun _ => detached (fetchUserGroups be)
  | ClickCreateGroupButton => openModal be
  | ClickCancel => fun _ => closeModal
  | TypeGroupName v => onGroupNameChange v
  | TypeSearch q => handleSearchChange be q
  | ClickPlayer p => handleAddPlayer p
  | ClickRemove i => handleRemovePlayer i
  | ClickSubmit => handleCreateGroup be
  end.

Definition step (w : World) (x : Backend * Event) : World :=
  run (handler_of (fst x) (snd x)) w.

Definition execute (trace : list (Backend * Event)) (w : World) : World :=
  fold_left step trace w.

Definition initialWorld : World := {| ui := initialState; ops := [] |}.

End WithStringBuiltins.

(** A lowercasing for the examples: the ASCII letters only. *)
Definition ascii_toLowerCase (s : jsstring) : jsstring :=
  map (fun c => if ((65 <=? c) && (c <=? 90))%N then (c + 32)%N else c) s.

(** ** Classification of backend operations *)

Definition is_read (op : BackendOp) : bool :=
  match op with
  | AuthGetSession | Select _ _ => true
  | _ => false
  end.

Definition is_insert (op : BackendOp) : bool :=
  match op with
  | Insert _ _ => true
  | _ => false
  end.

Definition is_write (op : BackendOp) : bool := negb (is_read op).

(** Overwrites or removes stored rows. *)
Definition is_destructive (op : BackendOp) : bool :=
  match op with
  | Update _ _ _ | Upsert _ _ | Delete _ _ => true
  | _ => false
  end.

(** ** Notions used by the statements *)

(** No two entries of a player list share an id. *)
Definition distinct_ids (l : list Player) : Prop := NoDup (map (@p_id) l).

(** [removes_id i l l']: [l'] is [l] with exactly the entries of id [i]
    taken out, the others kept in place. *)
Inductive removes_id (i : jsstring) : list Player -> list Player -> Prop :=
| removes_nil : removes_id i [] []
| removes_drop p l l' :
    p_id p = i -> removes_id i l l' -> removes_id i (p :: l) l'
| removes_keep p l l' :
    p_id p <> i -> removes_id i l l' -> removes_id i (p :: l) (p :: l').

(** The selection is the list [l]. *)
Definition selection_is (l : list Player) (w : World) : Prop :=
  selectedPlayers (ui w) = l.

(** The selection holds distinct ids, as a property of the world. *)
Definition selection_distinct (w : World) : Prop :=
  distinct_ids (selectedPlayers (ui w)).

(** Reads and inserts: what only looks at stored rows or adds new ones. *)
Definition read_or_insert (op : BackendOp) : bool := is_read op || is_insert op.

(** Every operation logged so far is a read or an insert. *)
Definition only_reads_and_inserts (w : World) : Prop :=
  Forall (fun op => read_or_insert op = true) (ops w).

(** The form state after a successful creation, before the list of
    groups is fetched again: message cleared, modal closed, form reset. *)
Definition form_closed (s : UiState) : UiState :=
  with_selectedPlayers []
    (with_searchQuery []
       (with_groupName [] (with_isModalOpen false (with_errorMessage [] s)))).

(** The insert into the join table that follows a created group. *)
Definition link_inserts (groupId : Z) (selected : list Player) : list BackendOp :=
  match selected with
  | [] => []
  | _ :: _ => [Insert T_group_players (groupPlayersData groupId selected)]
  end.

(** The ways a run of [handleCreateGroup] from [w] can end in [w'], one
    per path through the function. *)
Inductive CreateOutcome (lower : jsstring -> jsstring) (be : Backend)
    (w w' : World) : Prop :=
| out_no_name :
    groupName (ui w) = [] ->
    w' = {| ui := with_errorMessage MSG_ENTER_NAME (ui w); ops := ops w |} ->
    CreateOutcome lower be w w'
| out_duplicate :
    groupName (ui w) <> [] ->
    duplicate_name lower (userGroups (ui w)) (groupName (ui w)) = true ->
    w' = {| ui := with_errorMessage MSG_DUPLICATE (ui w); ops := ops w |} ->
    CreateOutcome lower be w w'
| out_session_error :
    groupName (ui w) <> [] ->
    duplicate_name lower (userGroups (ui w)) (groupName (ui w)) = false ->
    be_session be = SessionError ->
    w' = {| ui := with_errorMessage MSG_SESSION_ERROR (ui w);
            ops := ops w ++ [AuthGetSession] |} ->
    CreateOutcome lower be w w'
| out_no_session :
    groupName (ui w) <> [] ->
    duplicate_name lower (userGroups (ui w)) (groupName (ui w)) = false ->
    be_session be = NoSession ->
    w' = {| ui := with_errorMessage MSG_NO_SESSION (ui w);
            ops := ops w ++ [AuthGetSession] |} ->
    CreateOutcome lower be w w'
| out_insert_failed ownerId :
    groupName (ui w) <> [] ->
    duplicate_name lower (userGroups (ui w)) (groupName (ui w)) = false ->
    be_session be = Session ownerId ->
    be_insert_group be (groupName (ui w)) ownerId = GroupInsertError ->
    w' = {| ui := with_errorMessage MSG_CREATE_FAILED (ui w);
            ops := ops w ++ [AuthGetSession;
                             Insert T_groups [GroupRow (groupName (ui w)) ownerId]] |} ->
    CreateOutcome lower be w w'
| out_no_row ownerId :
    groupName (ui w) <> [] ->
    duplicate_name lower (userGroups (ui w)) (groupName (ui w)) = false ->
    be_session be = Session ownerId ->
    be_insert_group be (groupName (ui w)) ownerId = GroupInsertData [] ->
    w' = {| ui := with_errorMessage MSG_UNEXPECTED (ui w);
            ops := ops w ++ [AuthGetSession;
                             Insert T_groups [GroupRow (groupName (ui w)) ownerId]] |} ->
    CreateOutcome lower be w w'
| out_created ownerId row rows reads :
    groupName (ui w) <> [] ->
    duplicate_name lower (userGroups (ui w)) (groupName (ui w)) = false ->
    be_session be = Session ownerId ->
    be_insert_group be (groupName (ui w)) ownerId = GroupInsertData (row :: rows) ->
    Forall (fun op => is_read op = true) reads ->
    ui w' = with_userGroups (userGroups (ui w')) (form_closed (ui w)) ->
    ops w' = ops w ++ [AuthGetSession;
                       Insert T_groups [GroupRow (groupName (ui w)) ownerId]]
                   ++ link_inserts (rg_id row) (selectedPlayers (ui w))
                   ++ reads ->
    CreateOutcome lower be w w'.

(** [handleCreateGroup] stops before the group insert: no name, a
    duplicate name, a session error or no session. *)
Definition stops_early (lower : jsstring -> jsstring) (be : Backend)
    (s : UiState) : Prop :=
  groupName s = []
  \/ duplicate_name lower (userGroups s) (groupName s) = true
  \/ be_session be = SessionError
  \/ be_session be = NoSession.

(** The writes of the two-step insert, as the specification words them:
    one row into groups with the entered name and the owner; then, only
    if that succeeded and players are selected, one join row per
    selected player, pairing the new group's id with the player's. *)
Definition two_step_writes (name ownerId : jsstring)
    (result : GroupInsertResult) (selected : list Player) : list BackendOp :=
  Insert T_groups [GroupRow name ownerId] ::
  match result, selected with
  | GroupInsertData (created :: _), _ :: _ =>
      [Insert T_group_players
         (map (fun player => GroupPlayerLink (rg_id created) (p_id player)) selected)]
  | _, _ => []
  end.

(** Keeping the first group of each id, on lists without null: what
    the reducer of [uniqueGroups] computes there. *)
Definition keep_first (acc : list RawGroup) (g : RawGroup) : list RawGroup :=
  if existsb (fun a => (rg_id a =? rg_id g)%Z) acc then acc else acc ++ [g].

(** No member row has a null group. *)
Definition member_groups_present (memberGroups : option (list MemberRow)) : Prop :=
  match memberGroups with
  | Some rows => Forall (fun r => mr_groups r <> None) rows
  | None => True
  end.

(** The secondary lookup sent for a fetched player: one read of the
    users row of its owning user, if it has one. *)
Definition avatar_lookup (p : Player) : list BackendOp :=
  match p_user_id p with
  | Some (c :: uid) => [Select T_users (FEq (js "id") (c :: uid))]
  | _ => []
  end.

(** A handler keeps a property of the world, however it ends. *)
Definition preserves {A} (P : World -> Prop) (h : Handler A) : Prop :=
  forall w, P w -> P (snd (h w)).

(** The operations a run has added to the log. *)
Definition issued (w w' : World) (new : list BackendOp) : Prop :=
  ops w' = ops w ++ new.

(** The ids of the groups present in the two query results. *)
Fixpoint present_ids (l : list (option RawGroup)) : list Z :=
  match l with
  | [] => []
  | Some g :: l' => rg_id g :: present_ids l'
  | None :: l' => present_ids l'
  end.

(** Every string of whitespace code units. *)
Definition whitespace_only (s : jsstring) : Prop :=
  Forall (fun c => is_js_whitespace c = true) s.

(** What the lookup of an avatar gives when read as "the row's
    avatar_url, or null when there is none". *)
Definition row_avatar (userData : option UserRow) : OptStr :=
  match userData with
  | Some u =>
      match u_avatar_url u with
      | Some s => Str s
      | None => Null
      end
  | None => Null
  end.

(** The same, with an empty avatar_url counted as none. *)
Definition nonempty_row_avatar (userData : option UserRow) : OptStr :=
  match userData with
  | Some u =>
      match u_avatar_url u with
      | Some (c :: s) => Str (c :: s)
      | _ => Null
      end
  | None => Null
  end.

(** The player to be stored for a fetched one, given how an avatar
    lookup is read. *)
Definition stored_player (avatar : option UserRow -> OptStr) (be : Backend)
    (p : Player) : Player :=
  match p_user_id p with
  | Some (c :: uid) => set_avatar_url p (avatar (be_user be (c :: uid)))
  | _ => p
  end.

(** ** What is on screen *)

(** The [Modal] component: [null] when closed, else its children. *)
Definition Modal {A} (isOpen : bool) (children : A) : option A :=
  if negb isOpen then None else Some children.

(** [{errorMessage && (<p ...>{errorMessage}</p>)}], a child of the modal. *)
Definition error_paragraph (s : UiState) : option jsstring :=
  if truthy_str (errorMessage s) then Some (errorMessage s) else None.

(** The error text on screen, if any. *)
Definition shown_error (s : UiState) : option jsstring :=
  match Modal (isModalOpen s) (error_paragraph s) with
  | Some paragraph => paragraph
  | None => None
  end.

(** ** Further notions *)

(** The groups of a merged list, nulls left out. *)
Fixpoint present_groups (l : list (option RawGroup)) : list RawGroup :=
  match l with
  | [] => []
  | Some g :: l' => g :: present_groups l'
  | None :: l' => present_groups l'
  end.

(** The groups the two queries returned, owner result first. *)
Definition merged_groups (be : Backend) (userId : jsstring) : list RawGroup :=
  present_groups (allGroups (be_owner_groups be userId) (be_member_groups be userId)).

(** Lookup by id, in query results and in the stored list. *)
Definition find_raw (i : Z) (l : list RawGroup) : option RawGroup :=
  find (fun g => (rg_id g =? i)%Z) l.

Definition find_group (i : Z) (l : list Group) : option Group :=
  find (fun g => (g_id g =? i)%Z) l.

(** The stored groups have pairwise distinct ids. *)
Definition groups_distinct (w : World) : Prop :=
  NoDup (map (@g_id) (userGroups (ui w))).

(** The shape of the inserts the component sends: one named row into
    groups, or, into the join table, one or more rows of one group with
    pairwise distinct players.  Anything that is not an insert passes. *)
Definition well_formed_insert (op : BackendOp) : Prop :=
  match op with
  | Insert T_groups rows =>
      exists name ownerId, rows = [GroupRow name ownerId] /\ name <> []
  | Insert T_group_players rows =>
      rows <> []
      /\ exists groupId playerIds,
           rows = map (GroupPlayerLink groupId) playerIds /\ NoDup playerIds
  | Insert _ _ => False
  | _ => True
  end.

Definition inserts_well_formed (w : World) : Prop :=
  Forall well_formed_insert (ops w).

(** Only the list of players and the loading flag differ. *)
Definition same_but_players_loading (s s' : UiState) : Prop :=
  isModalOpen s' = isModalOpen s /\ groupName s' = groupName s
  /\ errorMessage s' = errorMessage s /\ searchQuery s' = searchQuery s
  /\ selectedPlayers s' = selectedPlayers s /\ userGroups s' = userGroups s.

(** Since the log was [before], only reads were added. *)
Definition only_reads_since (before : list BackendOp) (w : World) : Prop :=
  exists new, ops w = before ++ new /\ Forall (fun op => is_read op = true) new.

(** ** Sample data for the examples *)

Definition alice : Player :=
  {| p_id := js "p1"; p_user_id := Some (js "u1"); p_name := js "Alice";
     p_avatar_url := Absent |}.

Definition bob : Player :=
  {| p_id := js "p2"; p_user_id := None; p_name := js "Bob";
     p_avatar_url := Absent |}.

Definition friends : RawGroup :=
  {| rg_id := 1; rg_name := js "Friends"; rg_owner_id := Some (js "u1");
     rg_created_at := None; rg_group_players := None |}.

Definition weekend : RawGroup :=
  {| rg_id := 2; rg_name := js "Weekend"; rg_owner_id := Some (js "u2");
     rg_created_at := None; rg_group_players := None |}.

(** A backend in good order: user u1 is signed in, owns [friends] and is
    a member of [weekend]; every insert succeeds. *)
Definition be_ok : Backend :=
  {| be_session := Session (js "u1");
     be_owner_groups := fun _ => Some [friends];
     be_member_groups := fun _ =>
       Some [ {| mr_group_id := 2; mr_groups := Some weekend |};
              {| mr_group_id := 1; mr_groups := Some friends |} ];
     be_players := fun _ => PlayersData [alice; bob];
     be_user := fun _ => Some {| u_avatar_url := Some (js "https://img/a.png") |};
     be_insert_group := fun name owner =>
       GroupInsertData [ {| rg_id := 3; rg_name := name; rg_owner_id := Some owner;
                            rg_created_at := None; rg_group_players := None |} ];
     be_insert_links := fun _ => false |}.

(** The same, but the insert into the join table fails. *)
Definition be_join_fails : Backend :=
  {| be_session := be_session be_ok;
     be_owner_groups := be_owner_groups be_ok;
     be_member_groups := be_member_groups be_ok;
     be_players := be_players be_ok;
     be_user := be_user be_ok;
     be_insert_group := be_insert_group be_ok;
     be_insert_links := fun _ => true |}.

(** The same as [be_ok], but nobody is signed in. *)
Definition be_signed_out : Backend :=
  {| be_session := NoSession;
     be_owner_groups := be_owner_groups be_ok;
     be_member_groups := be_member_groups be_ok;
     be_players := be_players be_ok;
     be_user := be_user be_ok;
     be_insert_group := be_insert_group be_ok;
     be_insert_links := be_insert_links be_ok |}.

(** The same as [be_ok], but the users row has an empty avatar_url. *)
Definition be_empty_avatar : Backend :=
  {| be_session := be_session be_ok;
     be_owner_groups := be_owner_groups be_ok;
     be_member_groups := be_member_groups be_ok;
     be_players := be_players be_ok;
     be_user := fun _ => Some {| u_avatar_url := Some [] |};
     be_insert_group := be_insert_group be_ok;
     be_insert_links := be_insert_links be_ok |}.

(** The same as [be_ok], but the member query has a row whose embedded
    group is null. *)
Definition be_null_member_group : Backend :=
  {| be_session := be_session be_ok;
     be_owner_groups := be_owner_groups be_ok;
     be_member_groups := fun _ => Some [ {| mr_group_id := 2; mr_groups := None |} ];
     be_players := be_players be_ok;
     be_user := be_user be_ok;
     be_insert_group := be_insert_group be_ok;
     be_insert_links := be_insert_links be_ok |}.

(** The component after mounting, opening the modal, typing a name and
    picking two players. *)
Definition world_form_filled (name : jsstring) : World :=
  execute ascii_toLowerCase
    [ (be_ok, Mount); (be_ok, ClickCreateGroupButton);
      (be_ok, TypeGroupName name); (be_ok, ClickPlayer alice);
      (be_ok, ClickPlayer bob) ]
    initialWorld.

(** * Basic facts *)

Lemma str_eqb_eq (a b : jsstring) : str_eqb a b = true <-> a = b.
Proof.
  revert b; induction a as [|x a IH]; intros [|y b]; simpl;
    try (split; [discriminate | discriminate]); try tauto.
  rewrite andb_true_iff, N.eqb_eq, IH.
  split; [intros [-> ->]; reflexivity | intros H; inversion H; auto].
Qed.

Lemma str_eqb_refl (a : jsstring) : str_eqb a a = true.
Proof. apply str_eqb_eq; reflexivity. Qed.

Lemma str_eqb_neq (a b : jsstring) : str_eqb a b = false <-> a <> b.
Proof.
  rewrite <- str_eqb_eq. destruct (str_eqb a b); split; congruence.
Qed.

Lemma trimStart_whitespace (s : jsstring) :
  whitespace_only s -> trimStart s = [].
Proof.
  induction 1 as [|c s Hc _ IH]; simpl; [reflexivity|].
  rewrite Hc; exact IH.
Qed.

Lemma trim_whitespace (s : jsstring) : whitespace_only s -> trim s = [].
Proof.
  intros H. unfold trim, trimEnd.
  rewrite (trimStart_whitespace s H). reflexivity.
Qed.

(** * Properties kept by handlers *)

Section Preservation.

Variable P : World -> Prop.

Lemma preserves_ret A (a : A) : preserves P (ret a).
Proof. intros w H; exact H. Qed.

Lemma preserves_throw A : preserves P (@throw A).
Proof. intros w H; exact H. Qed.

Lemma preserves_lift_res A (r : Res A) : preserves P (lift_res r).
Proof. intros w H; exact H. Qed.

Lemma preserves_bind A B (m : Handler A) (k : A -> Handler B) :
  preserves P m -> (forall a, preserves P (k a)) -> preserves P (bind m k).
Proof.
  intros Hm Hk w H. unfold bind.
  specialize (Hm w H). destruct (m w) as [[a|] w']; simpl in *.
  - apply Hk; exact Hm.
  - exact Hm.
Qed.

Lemma preserves_try_catch (body handler : Handler unit) :
  preserves P body -> preserves P handler -> preserves P (try_catch body handler).
Proof.
  intros Hb Hh w H. unfold try_catch.
  specialize (Hb w H). destruct (body w) as [[a|] w']; simpl in *.
  - exact Hb.
  - apply Hh; exact Hb.
Qed.

Lemma preserves_try_catch_finally (body handler fin : Handler unit) :
  preserves P body -> preserves P handler -> preserves P fin ->
  preserves P (try_catch_finally body handler fin).
Proof.
  intros Hb Hh Hf. unfold try_catch_finally.
  apply preserves_bind; [apply preserves_try_catch; assumption | intros _; exact Hf].
Qed.

Lemma preserves_detached (h : Handler unit) :
  preserves P h -> preserves P (detached h).
Proof. intros Hh w H. unfold detached; simpl. apply Hh; exact H. Qed.

Lemma preserves_promise_all_map A B (f : A -> Handler B) (l : list A) :
  (forall x, preserves P (f x)) -> preserves P (promise_all_map f l).
Proof.
  intros Hf. induction l as [|x l IH]; simpl.
  - apply preserves_ret.
  - apply preserves_bind; [apply Hf|]. intros y.
    apply preserves_bind; [exact IH|]. intros ys. apply preserves_ret.
Qed.

End Preservation.

Create HintDb handlers.
#[export] Hint Resolve preserves_ret preserves_throw preserves_lift_res
  preserves_bind preserves_try_catch preserves_try_catch_finally
  preserves_detached preserves_promise_all_map : handlers.

(** Breaks a handler into its primitive steps. *)
Ltac preserve :=
  repeat match goal with
  | |- forall _, _ => intro
  | |- preserves _ (bind _ _) => apply preserves_bind
  | |- preserves _ (try_catch_finally _ _ _) => apply preserves_try_catch_finally
  | |- preserves _ (try_catch _ _) => apply preserves_try_catch
  | |- preserves _ (detached _) => apply preserves_detached
  | |- preserves _ (promise_all_map _ _) => apply preserves_promise_all_map
  | |- preserves _ (ret _) => apply preserves_ret
  | |- preserves _ throw => apply preserves_throw
  | |- preserves _ (lift_res _) => apply preserves_lift_res
  | |- preserves _ (match ?x with _ => _ end) => destruct x
  | |- _ => solve [auto with handlers]
  end.

(** * The selection: handleAddPlayer, handleRemovePlayer, closeModal *)

Section Selection.

Lemma existsb_same_id (i : jsstring) (l : list Player) :
  existsb (fun p => str_eqb (p_id p) i) l = true <-> In i (map (@p_id) l).
Proof.
  rewrite existsb_exists, in_map_iff. split.
  - intros [p [Hin Heq]]. apply str_eqb_eq in Heq. exists p; auto.
  - intros [p [Heq Hin]]. exists p. split; [exact Hin|]. apply str_eqb_eq; exact Heq.
Qed.

Lemma selected_after_add (p : Player) (w : World) :
  selectedPlayers (ui (run (handleAddPlayer p) w)) =
  if existsb (fun q => str_eqb (p_id q) (p_id p)) (selectedPlayers (ui w))
  then selectedPlayers (ui w)
  else selectedPlayers (ui w) ++ [p].
Proof.
  unfold run, handleAddPlayer.
  destruct (existsb _ _); reflexivity.
Qed.

Lemma add_selected_noop (p : Player) (w : World) :
  In (p_id p) (map (@p_id) (selectedPlayers (ui w))) ->
  run (handleAddPlayer p) w = w.
Proof.
  intros H. apply existsb_same_id in H.
  unfold run, handleAddPlayer. rewrite H. reflexivity.
Qed.

Lemma selected_after_remove (i : jsstring) (w : World) :
  selectedPlayers (ui (run (handleRemovePlayer i) w)) =
  filter (fun p => negb (str_eqb (p_id p) i)) (selectedPlayers (ui w)).
Proof. reflexivity. Qed.

Lemma selected_after_close (w : World) :
  selectedPlayers (ui (run (fun _ => closeModal) w)) = [].
Proof. reflexivity. Qed.

Lemma filter_removes_id (i : jsstring) (l : list Player) :
  removes_id i l (filter (fun p => negb (str_eqb (p_id p) i)) l).
Proof.
  induction l as [|p l IH]; simpl.
  - constructor.
  - case_eq (str_eqb (p_id p) i); intros E; simpl.
    + apply removes_drop; [apply str_eqb_eq; exact E | exact IH].
    + apply removes_keep; [apply str_eqb_neq; exact E | exact IH].
Qed.

(** [removes_id] determines its result. *)
Lemma removes_id_functional (i : jsstring) (l l1 l2 : list Player) :
  removes_id i l l1 -> removes_id i l l2 -> l1 = l2.
Proof.
  intros H1; revert l2.
  induction H1 as [|p l l' Hp _ IH|p l l' Hp _ IH]; intros l2 H2;
    inversion H2; subst; try contradiction; try congruence; auto.
  f_equal; auto.
Qed.

Lemma filter_absent_id (i : jsstring) (l : list Player) :
  ~ In i (map (@p_id) l) ->
  filter (fun p => negb (str_eqb (p_id p) i)) l = l.
Proof.
  induction l as [|p l IH]; simpl; intros H; [reflexivity|].
  assert (Hp : p_id p <> i) by (intros E; apply H; left; exact E).
  apply str_eqb_neq in Hp. rewrite Hp; simpl.
  f_equal. apply IH. intros Hin; apply H; right; exact Hin.
Qed.

Lemma distinct_ids_app_new (l : list Player) (p : Player) :
  distinct_ids l -> ~ In (p_id p) (map (@p_id) l) -> distinct_ids (l ++ [p]).
Proof.
  unfold distinct_ids. induction l as [|q l IH]; simpl; intros Hnd Hnot.
  - constructor; [intros [] | constructor].
  - inversion Hnd as [|x xs Hq Hl]; subst. constructor.
    + rewrite map_app, in_app_iff; simpl. intros [Hin | [Heq | []]].
      * exact (Hq Hin).
      * apply Hnot; left; symmetry; exact Heq.
    + apply IH; [exact Hl|]. intros Hin; apply Hnot; right; exact Hin.
Qed.

Lemma distinct_ids_filter (f : Player -> bool) (l : list Player) :
  distinct_ids l -> distinct_ids (filter f l).
Proof.
  unfold distinct_ids. induction l as [|q l IH]; simpl; intros Hnd; [exact Hnd|].
  inversion Hnd as [|x xs Hq Hl]; subst.
  destruct (f q); simpl; [constructor|]; auto.
  intros Hin. apply Hq. apply in_map_iff in Hin. destruct Hin as [r [Hr Hin]].
  apply filter_In in Hin. apply in_map_iff. exists r; tauto.
Qed.

Lemma add_keeps_distinct (p : Player) (w : World) :
  distinct_ids (selectedPlayers (ui w)) ->
  distinct_ids (selectedPlayers (ui (run (handleAddPlayer p) w))).
Proof.
  intros H. rewrite selected_after_add.
  case_eq (existsb (fun q => str_eqb (p_id q) (p_id p)) (selectedPlayers (ui w)));
    intros E; [exact H|].
  apply distinct_ids_app_new; [exact H|].
  rewrite <- existsb_same_id, E. discriminate.
Qed.

Lemma remove_keeps_distinct (i : jsstring) (w : World) :
  distinct_ids (selectedPlayers (ui w)) ->
  distinct_ids (selectedPlayers (ui (run (handleRemovePlayer i) w))).
Proof.
  intros H. rewrite selected_after_remove. apply distinct_ids_filter; exact H.
Qed.

Lemma selection_request A (l : list Player) (op : BackendOp) (r : A) :
  preserves (selection_is l) (request op r).
Proof. intros w H; exact H. Qed.

Lemma selection_modify (l : list Player) (f : UiState -> UiState) :
  (forall s, selectedPlayers (f s) = selectedPlayers s) ->
  preserves (selection_is l) (modify f).
Proof. intros Hf w H. unfold selection_is in *; simpl. rewrite Hf; exact H. Qed.

#[local] Hint Resolve selection_request : handlers.
#[local] Hint Extern 1 (preserves (selection_is _) (_ _)) =>
  (apply selection_modify; reflexivity) : handlers.

Lemma fetchUserGroups_selection (l : list Player) (be : Backend) :
  preserves (selection_is l) (fetchUserGroups be).
Proof. unfold fetchUserGroups. preserve. Qed.

Lemma fetchPlayers_selection (l : list Player) (be : Backend) (q : jsstring) :
  preserves (selection_is l) (fetchPlayers be q).
Proof. unfold fetchPlayers, resolve_avatar. preserve. Qed.

Lemma unchanged_selection_distinct A (h : Handler A) :
  (forall l, preserves (selection_is l) h) -> preserves selection_distinct h.
Proof.
  intros Hh w H. unfold selection_distinct.
  rewrite (Hh (selectedPlayers (ui w)) w eq_refl). exact H.
Qed.

Lemma distinct_request A (op : BackendOp) (r : A) :
  preserves selection_distinct (request op r).
Proof. intros w H; exact H. Qed.

Lemma distinct_setErrorMessage (m : jsstring) :
  preserves selection_distinct (setErrorMessage m).
Proof. intros w H; exact H. Qed.

Lemma distinct_closeModal : preserves selection_distinct closeModal.
Proof. intros w _. unfold selection_distinct; simpl. constructor. Qed.

Lemma distinct_fetchUserGroups (be : Backend) :
  preserves selection_distinct (fetchUserGroups be).
Proof.
  apply unchanged_selection_distinct. intros l; apply fetchUserGroups_selection.
Qed.

Lemma distinct_fetchPlayers (be : Backend) (q : jsstring) :
  preserves selection_distinct (fetchPlayers be q).
Proof.
  apply unchanged_selection_distinct. intros l; apply fetchPlayers_selection.
Qed.

#[local] Hint Resolve distinct_request distinct_setErrorMessage distinct_closeModal
  distinct_fetchUserGroups distinct_fetchPlayers : handlers.

Lemma distinct_handleCreateGroup lower (be : Backend) (snap : UiState) :
  preserves selection_distinct (handleCreateGroup lower be snap).
Proof. unfold handleCreateGroup, createGroup_body. preserve. Qed.

Lemma step_keeps_distinct lower (w : World) (x : Backend * Event) :
  selection_distinct w -> selection_distinct (step lower w x).
Proof.
  destruct x as [be e]. unfold step, run; simpl fst; simpl snd. intros H.
  destruct e; simpl handler_of.
  - apply preserves_detached; [apply distinct_fetchUserGroups | exact H].
  - revert H. apply unchanged_selection_distinct. intros l.
    unfold openModal. preserve. apply fetchPlayers_selection.
  - apply distinct_closeModal; exact H.
  - revert H. apply unchanged_selection_distinct. intros l.
    unfold onGroupNameChange. preserve.
  - revert H. apply unchanged_selection_distinct. intros l.
    unfold handleSearchChange. preserve. apply fetchPlayers_selection.
  - apply add_keeps_distinct; exact H.
  - apply remove_keeps_distinct; exact H.
  - apply distinct_handleCreateGroup; exact H.
Qed.

Lemma execute_keeps_distinct lower (trace : list (Backend * Event)) (w : World) :
  selection_distinct w -> selection_distinct (execute lower trace w).
Proof.
  revert w. induction trace as [|x trace IH]; intros w H; simpl; [exact H|].
  apply IH. apply step_keeps_distinct; exact H.
Qed.

End Selection.

(** C10.  handleRemovePlayer takes out exactly the entries whose id is the
    given one and keeps the others in their order; on a selection that
    does not hold the id it changes nothing; and removing a player just
    added to a selection that did not hold their id gives the selection
    back. *)
Theorem handleRemovePlayer_removes_exactly (i : jsstring) (w : World) :
  let before := selectedPlayers (ui w) in
  let after := selectedPlayers (ui (run (handleRemovePlayer i) w)) in
  removes_id i before after
  /\ (forall p, In p after <-> In p before /\ p_id p <> i)
  /\ (~ In i (map (@p_id) before) -> after = before)
  /\ (forall p, p_id p = i -> ~ In i (map (@p_id) before) ->
      selectedPlayers
        (ui (run (handleRemovePlayer i) (run (handleAddPlayer p) w))) = before).
Proof.
  cbv zeta. rewrite selected_after_remove. repeat split.
  - apply filter_removes_id.
  - apply filter_In in H; tauto.
  - apply filter_In in H. destruct H as [_ H].
    apply negb_true_iff, str_eqb_neq in H. exact H.
  - intros [Hin Hne]. apply filter_In. split; [exact Hin|].
    apply negb_true_iff, str_eqb_neq; exact Hne.
  - apply filter_absent_id.
  - intros p Hp Hnot. rewrite selected_after_remove, selected_after_add.
    assert (E : existsb (fun q => str_eqb (p_id q) (p_id p))
                  (selectedPlayers (ui w)) = false).
    { apply not_true_is_false. rewrite existsb_same_id, Hp. exact Hnot. }
    rewrite E, filter_app, filter_absent_id by exact Hnot. simpl.
    rewrite Hp, str_eqb_refl. simpl. apply app_nil_r.
Qed.

(** C8.  The selected-players list never holds two entries of the same
    id: so it is at the start; handleAddPlayer keeps it so, and does
    nothing when the id is already selected; handleRemovePlayer keeps it
    so; closeModal empties the list; and it is so after every sequence
    of events of the component. *)
Theorem selectedPlayers_ids_distinct :
  distinct_ids (selectedPlayers initialState)
  /\ (forall w p, distinct_ids (selectedPlayers (ui w)) ->
        distinct_ids (selectedPlayers (ui (run (handleAddPlayer p) w))))
  /\ (forall w p, In (p_id p) (map (@p_id) (selectedPlayers (ui w))) ->
        run (handleAddPlayer p) w = w)
  /\ (forall w i, distinct_ids (selectedPlayers (ui w)) ->
        distinct_ids (selectedPlayers (ui (run (handleRemovePlayer i) w))))
  /\ (forall w, selectedPlayers (ui (run (fun _ => closeModal) w)) = [])
  /\ (forall lower trace,
        distinct_ids (selectedPlayers (ui (execute lower trace initialWorld)))).
Proof.
  split; [constructor|].
  split; [intros w p; apply add_keeps_distinct|].
  split; [intros w p; apply add_selected_noop|].
  split; [intros w i; apply remove_keeps_distinct|].
  split; [intros w; apply selected_after_close|].
  intros lower trace.
  apply (execute_keeps_distinct lower trace initialWorld).
  constructor.
Qed.

(** * The operations sent to the backend *)

Section Operations.

Lemma roi_request A (op : BackendOp) (r : A) :
  read_or_insert op = true -> preserves only_reads_and_inserts (request op r).
Proof.
  intros Hop w H. unfold only_reads_and_inserts in *; simpl.
  apply Forall_app; split; [exact H|]. constructor; [exact Hop | constructor].
Qed.

Lemma roi_modify (f : UiState -> UiState) :
  preserves only_reads_and_inserts (modify f).
Proof. intros w H; exact H. Qed.

#[local] Hint Extern 1 (preserves only_reads_and_inserts (request _ _)) =>
  (apply roi_request; reflexivity) : handlers.
#[local] Hint Extern 1 (preserves only_reads_and_inserts _) =>
  (apply roi_modify) : handlers.

Lemma roi_fetchUserGroups (be : Backend) :
  preserves only_reads_and_inserts (fetchUserGroups be).
Proof. unfold fetchUserGroups. preserve. Qed.

Lemma roi_fetchPlayers (be : Backend) (q : jsstring) :
  preserves only_reads_and_inserts (fetchPlayers be q).
Proof. unfold fetchPlayers, resolve_avatar. preserve. Qed.

Lemma roi_closeModal : preserves only_reads_and_inserts closeModal.
Proof. unfold closeModal. preserve. Qed.

#[local] Hint Resolve roi_fetchUserGroups roi_fetchPlayers roi_closeModal : handlers.

Lemma roi_handleCreateGroup lower (be : Backend) (snap : UiState) :
  preserves only_reads_and_inserts (handleCreateGroup lower be snap).
Proof. unfold handleCreateGroup, createGroup_body. preserve. Qed.

Lemma roi_step lower (w : World) (x : Backend * Event) :
  only_reads_and_inserts w -> only_reads_and_inserts (step lower w x).
Proof.
  destruct x as [be e]. unfold step, run; simpl fst; simpl snd.
  generalize (ui w) as snap. intros snap. revert w.
  change (preserves only_reads_and_inserts (handler_of lower be e snap)).
  destruct e; simpl handler_of;
    unfold openModal, onGroupNameChange, handleSearchChange, handleAddPlayer,
      handleRemovePlayer;
    preserve.
  apply roi_handleCreateGroup.
Qed.

Lemma roi_execute lower (trace : list (Backend * Event)) (w : World) :
  only_reads_and_inserts w -> only_reads_and_inserts (execute lower trace w).
Proof.
  revert w. induction trace as [|x trace IH]; intros w H; simpl; [exact H|].
  apply IH. apply roi_step; exact H.
Qed.

Lemma read_or_insert_not_destructive (op : BackendOp) :
  read_or_insert op = true -> is_destructive op = false.
Proof. destruct op; cbv; congruence. Qed.

End Operations.

(** C6.  In every execution of the component, every operation sent to
    the backend is a read (the session, a select) or an insert; none is
    an update, an upsert or a delete. *)
Theorem component_only_reads_and_inserts
    (lower : jsstring -> jsstring) (trace : list (Backend * Event)) :
  Forall (fun op => is_read op = true \/ is_insert op = true)
         (ops (execute lower trace initialWorld))
  /\ Forall (fun op => is_destructive op = false)
            (ops (execute lower trace initialWorld)).
Proof.
  assert (H : only_reads_and_inserts (execute lower trace initialWorld)).
  { apply roi_execute. constructor. }
  unfold only_reads_and_inserts in H. split.
  - eapply Forall_impl; [|exact H]. intros op Hop.
    apply orb_true_iff; exact Hop.
  - eapply Forall_impl; [|exact H]. intros op.
    apply read_or_insert_not_destructive.
Qed.

(** * handleCreateGroup, path by path *)

Section CreateGroup.

Variable lower : jsstring -> jsstring.

Lemma with_userGroups_same (s : UiState) : with_userGroups (userGroups s) s = s.
Proof. destruct s; reflexivity. Qed.

(** [fetchUserGroups] sends reads only and touches nothing but the
    list of groups. *)
Lemma fetchUserGroups_effect (be : Backend) (w : World) :
  exists reads,
    Forall (fun op => is_read op = true) reads
    /\ ops (snd (fetchUserGroups be w)) = ops w ++ reads
    /\ ui (snd (fetchUserGroups be w)) =
       with_userGroups (userGroups (ui (snd (fetchUserGroups be w)))) (ui w).
Proof.
  unfold fetchUserGroups, bind, request, lift_res, setUserGroups, modify, ret.
  simpl. destruct (be_session be) as [| |userId]; simpl.
  - exists [AuthGetSession]. repeat split; auto.
    symmetry; apply with_userGroups_same.
  - exists [AuthGetSession]. repeat split; auto.
    symmetry; apply with_userGroups_same.
  - destruct (groupsWithPlayers _ _) as [gs|]; simpl;
      (eexists [AuthGetSession; Select _ _; Select _ _]; split; [|split]);
      try (repeat constructor);
      try (rewrite <- !app_assoc; reflexivity).
    symmetry; apply with_userGroups_same.
Qed.

Lemma handleCreateGroup_outcome (be : Backend) (w : World) :
  CreateOutcome lower be w (run (handleCreateGroup lower be) w).
Proof.
  unfold run, handleCreateGroup.
  destruct (groupName (ui w)) as [|c name] eqn:Hname.
  { apply out_no_name; [exact Hname | reflexivity]. }
  assert (Hne : c :: name <> []) by discriminate.
  simpl negb. cbv iota.
  destruct (duplicate_name lower (userGroups (ui w)) (c :: name)) eqn:Hdup.
  { apply out_duplicate; [rewrite Hname; exact Hne | rewrite Hname; exact Hdup | reflexivity]. }
  unfold bind at 1. unfold setErrorMessage at 1, modify at 1.
  unfold bind at 1. unfold request at 1.
  destruct (be_session be) as [| |ownerId] eqn:Hs.
  { apply out_session_error; try rewrite Hname; auto. }
  { apply out_no_session; try rewrite Hname; auto. }
  unfold try_catch, createGroup_body.
  unfold bind at 1. unfold request at 1. rewrite Hname.
  destruct (be_insert_group be (c :: name) ownerId) as [|[|row rows]] eqn:Hins.
  { eapply out_insert_failed; try rewrite Hname; eauto.
    simpl. rewrite <- app_assoc. reflexivity. }
  { eapply out_no_row; try rewrite Hname; eauto.
    simpl. rewrite <- app_assoc. reflexivity. }
  set (w1 := {| ui := with_errorMessage [] (ui w);
                ops := (ops w ++ [AuthGetSession])
                       ++ [Insert T_groups [GroupRow (c :: name) ownerId]] |}).
  destruct (selectedPlayers (ui w)) as [|p sel] eqn:Hsel.
  - simpl. unfold detached; simpl.
    match goal with |- context [fetchUserGroups be ?w2] =>
      destruct (fetchUserGroups_effect be w2) as [reads [Hr [Hops Hui]]] end.
    eapply out_created with (reads := reads); try rewrite Hname; eauto.
    rewrite Hops. simpl. rewrite Hsel. simpl.
    rewrite <- !app_assoc. reflexivity.
  - simpl Nat.ltb. cbv iota.
    destruct (be_insert_links be (groupPlayersData (rg_id row) (p :: sel))) eqn:Hj;
      unfold bind, request, setErrorMessage, closeModal, modify, detached, ret;
      simpl;
      match goal with |- context [fetchUserGroups be ?w2] =>
        destruct (fetchUserGroups_effect be w2) as [reads [Hr [Hops Hui]]] end;
      eapply out_created with (reads := reads); try rewrite Hname; eauto;
      rewrite Hops; simpl; rewrite Hsel; simpl;
      rewrite <- !app_assoc; reflexivity.
Qed.

End CreateGroup.

(** * What handleCreateGroup guarantees *)

Lemma duplicate_name_iff (lower : jsstring -> jsstring) (groups : list Group)
    (name : jsstring) :
  duplicate_name lower groups name = true <->
  exists g, In g groups /\ lower (trim (g_name g)) = lower (trim name).
Proof.
  unfold duplicate_name. rewrite existsb_exists.
  split; intros [g [Hin H]]; exists g; (split; [exact Hin|]);
    apply str_eqb_eq; exact H.
Qed.

Lemma other_messages_differ :
  MSG_DUPLICATE <> MSG_ENTER_NAME /\ MSG_SESSION_ERROR <> MSG_ENTER_NAME
  /\ MSG_NO_SESSION <> MSG_ENTER_NAME /\ MSG_CREATE_FAILED <> MSG_ENTER_NAME
  /\ MSG_UNEXPECTED <> MSG_ENTER_NAME.
Proof. repeat split; intros H; vm_compute in H; discriminate. Qed.

Lemma filter_write_reads (reads : list BackendOp) :
  Forall (fun op => is_read op = true) reads -> filter is_write reads = [].
Proof.
  induction 1 as [|op reads Hop _ IH]; simpl; [reflexivity|].
  unfold is_write at 1. rewrite Hop. exact IH.
Qed.

(** C1, as the code has it.  When the entered name, trimmed and
    lowercased, is that of a group of the list the component has stored
    ([userGroups]), handleCreateGroup sends nothing to the backend (so no
    insert), changes nothing but the error message, and leaves a message:
    the duplicate-name one whenever a name was entered.  So a submit
    never creates a group named as a group of the stored list. *)
Theorem duplicate_group_name_rejected
    (lower : jsstring -> jsstring) (be : Backend) (w : World) :
  (exists g, In g (userGroups (ui w))
             /\ lower (trim (g_name g)) = lower (trim (groupName (ui w)))) ->
  let w' := run (handleCreateGroup lower be) w in
  ops w' = ops w
  /\ errorMessage (ui w') <> []
  /\ (groupName (ui w) <> [] -> errorMessage (ui w') = MSG_DUPLICATE)
  /\ ui w' = with_errorMessage (errorMessage (ui w')) (ui w).
Proof.
  intros Hdup. apply duplicate_name_iff in Hdup. cbv zeta.
  destruct (handleCreateGroup_outcome lower be w)
    as [Hn Hw | Hn Hd Hw | Hn Hd | Hn Hd | o Hn Hd | o Hn Hd | o r rs rd Hn Hd];
    try congruence; rewrite Hw; simpl.
  - repeat split; [discriminate | intros H; contradiction].
  - repeat split; discriminate.
Qed.

(** C5.  On each of the four ways to stop before the group insert (no
    name, duplicate name, session error, no session) handleCreateGroup
    leaves an error message, sends no write to the backend, and leaves
    the entered name and the selection as they were; on every other
    state it does send the group insert. *)
Theorem early_failure_writes_nothing
    (lower : jsstring -> jsstring) (be : Backend) (w : World) :
  let w' := run (handleCreateGroup lower be) w in
  (stops_early lower be (ui w) ->
     In (errorMessage (ui w'))
        [MSG_ENTER_NAME; MSG_DUPLICATE; MSG_SESSION_ERROR; MSG_NO_SESSION]
     /\ errorMessage (ui w') <> []
     /\ (exists new, issued w w' new /\ Forall (fun op => is_write op = false) new)
     /\ groupName (ui w') = groupName (ui w)
     /\ selectedPlayers (ui w') = selectedPlayers (ui w))
  /\ (~ stops_early lower be (ui w) ->
      exists new ownerId,
        issued w w' new
        /\ In (Insert T_groups [GroupRow (groupName (ui w)) ownerId]) new).
Proof.
  cbv zeta. unfold stops_early, issued.
  destruct (handleCreateGroup_outcome lower be w)
    as [Hn Hw | Hn Hd Hw | Hn Hd Hs Hw | Hn Hd Hs Hw | o Hn Hd Hs Hi Hw
        | o Hn Hd Hs Hi Hw | o r rs rd Hn Hd Hs Hi Hr Hui Hops].
  - rewrite Hw; simpl. split; [intros _ | tauto].
    repeat split; auto; try discriminate.
    exists []. rewrite app_nil_r. split; [reflexivity | constructor].
  - rewrite Hw; simpl. split; [intros _ | tauto].
    repeat split; auto; try discriminate.
    exists []. rewrite app_nil_r. split; [reflexivity | constructor].
  - rewrite Hw; simpl. split; [intros _ | tauto].
    repeat split; auto; try discriminate.
    exists [AuthGetSession]. split; [reflexivity | repeat constructor].
  - rewrite Hw; simpl. split; [intros _ | tauto].
    repeat split; auto 6; try discriminate.
    exists [AuthGetSession]. split; [reflexivity | repeat constructor].
  - split; [intros [H|[H|[H|H]]]; congruence | intros _].
    rewrite Hw; simpl. eexists; exists o. split; [reflexivity|]. simpl; auto.
  - split; [intros [H|[H|[H|H]]]; congruence | intros _].
    rewrite Hw; simpl. eexists; exists o. split; [reflexivity|]. simpl; auto.
  - split; [intros [H|[H|[H|H]]]; congruence | intros _].
    rewrite Hops. eexists; exists o. split; [reflexivity|]. simpl; auto.
Qed.

(** C2.  The writes of handleCreateGroup, in the order they are sent,
    are those of the two-step insert: nothing when it stops early;
    otherwise first one row into groups with the entered name and the
    session user as owner, followed, only when that insert gave back the
    created row and players are selected, by one insert into the join
    table with one row per selected player pairing the new group's id
    with the player's id.  When the group insert fails no join row is
    inserted. *)
Theorem create_group_two_step_insert
    (lower : jsstring -> jsstring) (be : Backend) (w : World) :
  let snap := ui w in
  let w' := run (handleCreateGroup lower be) w in
  exists new,
    issued w w' new
    /\ (stops_early lower be snap -> filter is_write new = [])
    /\ (forall ownerId,
          ~ stops_early lower be snap ->
          be_session be = Session ownerId ->
          filter is_write new =
          two_step_writes (groupName snap) ownerId
            (be_insert_group be (groupName snap) ownerId) (selectedPlayers snap))
    /\ (forall ownerId,
          be_session be = Session ownerId ->
          be_insert_group be (groupName snap) ownerId = GroupInsertError ->
          forall rows, ~ In (Insert T_group_players rows) new).
Proof.
  cbv zeta. unfold stops_early, issued.
  destruct (handleCreateGroup_outcome lower be w)
    as [Hn Hw | Hn Hd Hw | Hn Hd Hs Hw | Hn Hd Hs Hw | o Hn Hd Hs Hi Hw
        | o Hn Hd Hs Hi Hw | o r rs rd Hn Hd Hs Hi Hr Hui Hops].
  - exists []. rewrite Hw, app_nil_r; simpl. repeat split; auto.
    intros o Hstop; tauto.
  - exists []. rewrite Hw, app_nil_r; simpl. repeat split; auto.
    intros o Hstop; tauto.
  - exists [AuthGetSession]. rewrite Hw; simpl. repeat split; auto.
    + intros o Hstop; tauto.
    + intros o _ _ rows [H|[]]; discriminate.
  - exists [AuthGetSession]. rewrite Hw; simpl. repeat split; auto.
    + intros o Hstop; tauto.
    + intros o _ _ rows [H|[]]; discriminate.
  - eexists. rewrite Hw; simpl. split; [reflexivity|]. split; [|split].
    + intros [H|[H|[H|H]]]; congruence.
    + intros o' _ Ho'. assert (o' = o) by congruence; subst o'.
      rewrite Hi. reflexivity.
    + intros o' _ _ rows [H|[H|[]]]; discriminate.
  - eexists. rewrite Hw; simpl. split; [reflexivity|]. split; [|split].
    + intros [H|[H|[H|H]]]; congruence.
    + intros o' _ Ho'. assert (o' = o) by congruence; subst o'.
      rewrite Hi. reflexivity.
    + intros o' _ _ rows [H|[H|[]]]; discriminate.
  - eexists. rewrite Hops. split; [reflexivity|]. split; [|split].
    + intros [H|[H|[H|H]]]; congruence.
    + intros o' _ Ho'. assert (o' = o) by congruence; subst o'.
      rewrite Hi. simpl. rewrite filter_app, (filter_write_reads rd Hr), app_nil_r.
      unfold two_step_writes, link_inserts, groupPlayersData.
      destruct (selectedPlayers (ui w)); reflexivity.
    + intros o' Ho' Hi'. assert (o' = o) by congruence; subst o'. congruence.
Qed.

(** The general form of the defect behind C3: whenever the group row is
    created and the join insert is sent, whether or not the latter fails,
    the run ends with no message and the modal closed. *)
Lemma created_group_leaves_no_message
    (lower : jsstring -> jsstring) (be : Backend) (w : World)
    (ownerId : jsstring) (row : RawGroup) (rows : list RawGroup) :
  ~ stops_early lower be (ui w) ->
  be_session be = Session ownerId ->
  be_insert_group be (groupName (ui w)) ownerId = GroupInsertData (row :: rows) ->
  let w' := run (handleCreateGroup lower be) w in
  errorMessage (ui w') = [] /\ isModalOpen (ui w') = false.
Proof.
  unfold stops_early. intros Hstop Hs Hi. cbv zeta.
  destruct (handleCreateGroup_outcome lower be w)
    as [Hn Hw | Hn Hd Hw | Hn Hd Hs' Hw | Hn Hd Hs' Hw | o Hn Hd Hs' Hi' Hw
        | o Hn Hd Hs' Hi' Hw | o r rs rd Hn Hd Hs' Hi' Hr Hui Hops];
    try tauto; try congruence.
  rewrite Hui. split; reflexivity.
Qed.

(** C3 (the code departs from it).  With two players selected, a
    session, a group row created and the join insert failing, the run of
    handleCreateGroup sends both inserts and ends with an empty error
    message and the modal closed: the "Group created, but failed to add
    some players." message set on the failure is overwritten by the
    [setErrorMessage("")] that follows it. *)
Theorem join_failure_message_is_overwritten :
  let w := world_form_filled (js "Catan night") in
  let w' := run (handleCreateGroup ascii_toLowerCase be_join_fails) w in
  map (@p_id) (selectedPlayers (ui w)) = [js "p1"; js "p2"]
  /\ filter is_write (skipn (List.length (ops w)) (ops w')) =
     [ Insert T_groups [GroupRow (js "Catan night") (js "u1")];
       Insert T_group_players
         [GroupPlayerLink 3 (js "p1"); GroupPlayerLink 3 (js "p2")] ]
  /\ be_insert_links be_join_fails
       [GroupPlayerLink 3 (js "p1"); GroupPlayerLink 3 (js "p2")] = true
  /\ errorMessage (ui w') = []
  /\ errorMessage (ui w') <> MSG_PLAYERS_FAILED
  /\ isModalOpen (ui w') = false.
Proof.
  cbv zeta. repeat split; try (vm_compute; reflexivity).
  vm_compute. discriminate.
Qed.

(** Past the four early stops, the group insert is sent. *)
Lemma group_insert_sent
    (lower : jsstring -> jsstring) (be : Backend) (w : World) (ownerId : jsstring) :
  ~ stops_early lower be (ui w) ->
  be_session be = Session ownerId ->
  exists new,
    issued w (run (handleCreateGroup lower be) w) new
    /\ In (Insert T_groups [GroupRow (groupName (ui w)) ownerId]) new.
Proof.
  unfold stops_early, issued. intros Hstop Hs.
  destruct (handleCreateGroup_outcome lower be w)
    as [Hn Hw | Hn Hd Hw | Hn Hd Hs' Hw | Hn Hd Hs' Hw | o Hn Hd Hs' Hi' Hw
        | o Hn Hd Hs' Hi' Hw | o r rs rd Hn Hd Hs' Hi' Hr Hui Hops];
    try tauto; try congruence;
    (assert (o = ownerId) by congruence; subst o);
    [rewrite Hw | rewrite Hw | rewrite Hops]; simpl;
    (eexists; split; [reflexivity | simpl; auto]).
Qed.

(** C9.  The "Please enter a group name." branch is taken exactly when
    the entered name is the empty string.  A name of one or more
    whitespace characters passes it: provided no group of the list has an
    empty trimmed lowercased name and a session is found, the group
    insert is sent with that name, and if it gives back the created row
    the run ends as a successful creation. *)
Theorem whitespace_name_passes_empty_check
    (lower : jsstring -> jsstring) (be : Backend) (w : World) :
  let name := groupName (ui w) in
  let w' := run (handleCreateGroup lower be) w in
  (errorMessage (ui w') = MSG_ENTER_NAME <-> name = [])
  /\ (forall ownerId,
        whitespace_only name -> name <> [] ->
        lower [] = [] ->
        Forall (fun g => lower (trim (g_name g)) <> []) (userGroups (ui w)) ->
        be_session be = Session ownerId ->
        (exists new, issued w w' new
                     /\ In (Insert T_groups [GroupRow name ownerId]) new)
        /\ (forall row rows,
              be_insert_group be name ownerId = GroupInsertData (row :: rows) ->
              errorMessage (ui w') = [] /\ isModalOpen (ui w') = false)).
Proof.
  cbv zeta.
  destruct other_messages_differ as [D1 [D2 [D3 [D4 D5]]]].
  split.
  - destruct (handleCreateGroup_outcome lower be w)
      as [Hn Hw | Hn Hd Hw | Hn Hd Hs Hw | Hn Hd Hs Hw | o Hn Hd Hs Hi Hw
          | o Hn Hd Hs Hi Hw | o r rs rd Hn Hd Hs Hi Hr Hui Hops];
      try (rewrite Hw; simpl; tauto).
    rewrite Hui; simpl. split; [intros H; vm_compute in H; discriminate | tauto].
  - intros ownerId Hws Hne Hlow Hgroups Hs.
    assert (Hnot : ~ stops_early lower be (ui w)).
    { unfold stops_early. intros [H|[H|[H|H]]]; try congruence.
      apply duplicate_name_iff in H. destruct H as [g [Hin Hg]].
      rewrite (trim_whitespace _ Hws), Hlow in Hg.
      rewrite Forall_forall in Hgroups. exact (Hgroups g Hin Hg). }
    split.
    + apply group_insert_sent; assumption.
    + intros row rows Hi.
      eapply created_group_leaves_no_message; eassumption.
Qed.

(** * fetchPlayers *)

Lemma avatar_or_null_nonempty (userData : option UserRow) :
  avatar_or_null userData = nonempty_row_avatar userData.
Proof.
  destruct userData as [[[[|c s]|]]|]; reflexivity.
Qed.

(** One lookup: the player to store, and the read sent for it. *)
Lemma resolve_avatar_run (be : Backend) (p : Player) (w : World) :
  resolve_avatar be p w =
  (Ok (stored_player nonempty_row_avatar be p),
   {| ui := ui w; ops := ops w ++ avatar_lookup p |}).
Proof.
  unfold resolve_avatar, stored_player, avatar_lookup.
  destruct (p_user_id p) as [[|c uid]|]; simpl.
  - rewrite app_nil_r. destruct w; reflexivity.
  - unfold bind, request, ret; simpl. rewrite avatar_or_null_nonempty. reflexivity.
  - rewrite app_nil_r. destruct w; reflexivity.
Qed.

(** All the lookups: the stored list is the fetched one mapped, in
    order, and the reads go out in that order too. *)
Lemma promise_all_resolve_run (be : Backend) (data : list Player) (w : World) :
  promise_all_map (resolve_avatar be) data w =
  (Ok (map (stored_player nonempty_row_avatar be) data),
   {| ui := ui w; ops := ops w ++ flat_map avatar_lookup data |}).
Proof.
  revert w. induction data as [|p data IH]; intros w; simpl.
  - rewrite app_nil_r. destruct w; reflexivity.
  - unfold bind at 1. rewrite resolve_avatar_run.
    unfold bind at 1. rewrite IH.
    unfold ret; simpl. rewrite app_assoc. reflexivity.
Qed.

Lemma fetchPlayers_run (be : Backend) (query : jsstring) (w : World)
    (data : list Player) :
  be_players be (players_filter query) = PlayersData data ->
  snd (fetchPlayers be query w) =
  {| ui := with_loading false
             (with_players (map (stored_player nonempty_row_avatar be) data)
                (with_loading true (ui w)));
     ops := ops w ++ Select T_players (players_filter query)
                     :: flat_map avatar_lookup data |}.
Proof.
  intros Hdata.
  unfold fetchPlayers, try_catch_finally, try_catch.
  unfold bind at 1. unfold setLoading at 1, modify at 1.
  unfold bind at 1. unfold bind at 1. unfold request at 1. rewrite Hdata.
  unfold bind at 1. rewrite promise_all_resolve_run.
  simpl. rewrite <- app_assoc. reflexivity.
Qed.

(** C7, as the code has it.  When the players query answers with a
    list, the stored list is that list, same length and order, where a
    player with a non-empty owning-user identifier has avatar_url set to
    the avatar_url of the users row found for it when that is a non-empty
    string, and to null otherwise (no row, a null or an empty
    avatar_url); any other player is stored unchanged.  One read of the
    users table is sent per player with such an identifier, in order. *)
Theorem fetchPlayers_resolves_avatars
    (be : Backend) (query : jsstring) (w : World) (data : list Player) :
  be_players be (players_filter query) = PlayersData data ->
  let w' := snd (fetchPlayers be query w) in
  let stored := players (ui w') in
  stored = map (stored_player nonempty_row_avatar be) data
  /\ List.length stored = List.length data
  /\ (forall i p, nth_error data i = Some p ->
        nth_error stored i = Some (stored_player nonempty_row_avatar be p))
  /\ (forall i p q, nth_error data i = Some p -> nth_error stored i = Some q ->
        p_id q = p_id p /\ p_user_id q = p_user_id p /\ p_name q = p_name p)
  /\ issued w w' (Select T_players (players_filter query)
                    :: flat_map avatar_lookup data).
Proof.
  intros Hdata. cbv zeta. rewrite (fetchPlayers_run be query w data Hdata).
  simpl.
  split; [reflexivity|]. split; [apply length_map|]. split; [|split].
  - intros i p Hp. rewrite nth_error_map, Hp. reflexivity.
  - intros i p q Hp Hq. rewrite nth_error_map, Hp in Hq. simpl in Hq.
    injection Hq as <-. unfold stored_player.
    destruct p as [pid [[|c uid]|] pname pav]; repeat split; reflexivity.
  - reflexivity.
Qed.

Lemma fetchPlayers_resolves_avatars_witness :
  players (ui (snd (fetchPlayers be_ok [] initialWorld))) =
  [ set_avatar_url alice (Str (js "https://img/a.png")); bob ].
Proof.
  destruct (fetchPlayers_resolves_avatars be_ok [] initialWorld [alice; bob]
              eq_refl) as [H _].
  exact H.
Defined.

(** C7, as the specification words it, fails where the users row has an empty
    avatar_url: the row's value is the empty string, the stored one is
    null. *)
Lemma fetchPlayers_empty_avatar_counterexample :
  be_players be_empty_avatar (players_filter []) = PlayersData [alice; bob]
  /\ p_user_id alice = Some (js "u1")
  /\ be_user be_empty_avatar (js "u1") = Some {| u_avatar_url := Some [] |}
  /\ players (ui (snd (fetchPlayers be_empty_avatar [] initialWorld))) =
     [ set_avatar_url alice Null; bob ]
  /\ players (ui (snd (fetchPlayers be_empty_avatar [] initialWorld))) <>
     map (stored_player row_avatar be_empty_avatar) [alice; bob].
Proof.
  repeat split; try (vm_compute; reflexivity).
  vm_compute. discriminate.
Qed.

(** * fetchUserGroups: merging and deduplicating *)

Section UniqueGroups.

Lemma array_find_present (g : RawGroup) (acc : list RawGroup) :
  array_find (same_id (Some g)) (map (@Some RawGroup) acc) =
  Ok (option_map (@Some RawGroup)
        (find (fun a => (rg_id a =? rg_id g)%Z) acc)).
Proof.
  induction acc as [|a acc IH]; simpl; [reflexivity|].
  destruct (rg_id a =? rg_id g)%Z; [reflexivity | exact IH].
Qed.

Lemma find_existsb (f : RawGroup -> bool) (l : list RawGroup) :
  existsb f l = match find f l with Some _ => true | None => false end.
Proof.
  induction l as [|a l IH]; simpl; [reflexivity|].
  destruct (f a); [reflexivity | exact IH].
Qed.

Lemma dedup_step_present (acc : list RawGroup) (g : RawGroup) :
  dedup_step (map (@Some RawGroup) acc) (Some g) =
  Ok (map (@Some RawGroup) (keep_first acc g)).
Proof.
  unfold dedup_step, keep_first. rewrite array_find_present, find_existsb. simpl.
  destruct (find _ acc); simpl; [reflexivity|].
  rewrite map_app. reflexivity.
Qed.

Lemma uniqueGroups_present (l acc : list RawGroup) :
  array_reduce dedup_step (map (@Some RawGroup) l) (map (@Some RawGroup) acc) =
  Ok (map (@Some RawGroup) (fold_left keep_first l acc)).
Proof.
  revert acc. induction l as [|g l IH]; intros acc; simpl; [reflexivity|].
  rewrite dedup_step_present. simpl. apply IH.
Qed.

Lemma existsb_rg_id (g : RawGroup) (acc : list RawGroup) :
  existsb (fun a => (rg_id a =? rg_id g)%Z) acc = true <->
  In (rg_id g) (map (@rg_id) acc).
Proof.
  rewrite existsb_exists, in_map_iff.
  split; intros [a [H1 H2]]; exists a.
  - apply Z.eqb_eq in H2. tauto.
  - split; [tauto|]. apply Z.eqb_eq; tauto.
Qed.

Lemma keep_first_NoDup (acc : list RawGroup) (g : RawGroup) :
  NoDup (map (@rg_id) acc) -> NoDup (map (@rg_id) (keep_first acc g)).
Proof.
  intros H. unfold keep_first.
  destruct (existsb _ acc) eqn:E; [exact H|].
  rewrite map_app. simpl.
  assert (Hnot : ~ In (rg_id g) (map (@rg_id) acc)).
  { rewrite <- existsb_rg_id, E. discriminate. }
  clear E. induction (map (@rg_id) acc) as [|x xs IH]; simpl.
  - constructor; [intros [] | constructor].
  - inversion H as [|y ys Hx Hxs]; subst. constructor.
    + rewrite in_app_iff. simpl. intros [Hin|[Heq|[]]]; [exact (Hx Hin)|].
      apply Hnot. left. symmetry; exact Heq.
    + apply IH; [exact Hxs|]. intros Hin. apply Hnot. right; exact Hin.
Qed.

Lemma keep_first_ids (acc : list RawGroup) (g : RawGroup) (i : Z) :
  In i (map (@rg_id) (keep_first acc g)) <->
  In i (map (@rg_id) acc) \/ i = rg_id g.
Proof.
  unfold keep_first. destruct (existsb _ acc) eqn:E.
  - apply existsb_rg_id in E. split; [tauto|].
    intros [H| ->]; assumption.
  - rewrite map_app, in_app_iff. simpl. split.
    + intros [H|[H|[]]]; [left; exact H | right; symmetry; exact H].
    + intros [H|H]; [left; exact H | right; left; symmetry; exact H].
Qed.

Lemma fold_keep_first_NoDup (l acc : list RawGroup) :
  NoDup (map (@rg_id) acc) ->
  NoDup (map (@rg_id) (fold_left keep_first l acc)).
Proof.
  revert acc. induction l as [|g l IH]; intros acc H; simpl; [exact H|].
  apply IH. apply keep_first_NoDup; exact H.
Qed.

Lemma fold_keep_first_ids (l acc : list RawGroup) (i : Z) :
  In i (map (@rg_id) (fold_left keep_first l acc)) <->
  In i (map (@rg_id) acc) \/ In i (map (@rg_id) l).
Proof.
  revert acc. induction l as [|g l IH]; intros acc; simpl; [tauto|].
  rewrite IH, keep_first_ids. split.
  - intros [[H|H]|H]; auto.
  - intros [H|[H|H]]; auto.
Qed.

Lemma array_map_present (l : list RawGroup) :
  array_map group_with_players (map (@Some RawGroup) l) =
  Ok (map spread_with_players l).
Proof.
  induction l as [|g l IH]; simpl; [reflexivity|].
  rewrite IH. reflexivity.
Qed.

Lemma present_ids_map (l : list RawGroup) :
  present_ids (map (@Some RawGroup) l) = map (@rg_id) l.
Proof.
  induction l as [|g l IH]; simpl; [reflexivity|]. rewrite IH; reflexivity.
Qed.

(** With no null group among the member rows, the merged list is a list
    of groups. *)
Lemma allGroups_present (ownerGroups : option (list RawGroup))
    (memberGroups : option (list MemberRow)) :
  member_groups_present memberGroups ->
  exists l, allGroups ownerGroups memberGroups = map (@Some RawGroup) l.
Proof.
  intros H.
  assert (Hm : exists m, memberGroupList memberGroups = map (@Some RawGroup) m).
  { destruct memberGroups as [rows|]; simpl in *; [|exists []; reflexivity].
    induction H as [|r rows Hr _ [m IH]]; [exists []; reflexivity|].
    destruct (mr_groups r) as [g|] eqn:E; [|congruence].
    exists (g :: m). simpl. rewrite E, IH. reflexivity. }
  destruct Hm as [m Hm]. unfold allGroups. rewrite Hm.
  destruct ownerGroups as [og|]; [|exists m; reflexivity].
  exists (og ++ m). rewrite map_app. reflexivity.
Qed.

Lemma groupsWithPlayers_present (l : list RawGroup) :
  res_bind (uniqueGroups (map (@Some RawGroup) l)) (array_map group_with_players) =
  Ok (map spread_with_players (fold_left keep_first l [])).
Proof.
  unfold uniqueGroups.
  pose proof (uniqueGroups_present l []) as H. simpl in H. rewrite H.
  simpl. apply array_map_present.
Qed.

(** A null group anywhere in the merged list makes the computation
    throw: in the reducer when it is compared with a kept group, or else
    in the mapper. *)
Lemma dedup_step_keeps_null (acc acc' : list (option RawGroup))
    (group : option RawGroup) :
  dedup_step acc group = Ok acc' ->
  In None acc \/ group = None -> In None acc'.
Proof.
  unfold dedup_step. intros H Hnull.
  destruct (array_find (same_id group) acc) as [r|] eqn:E; simpl in H; [|discriminate].
  injection H as <-.
  destruct Hnull as [Hin | ->].
  - destruct (negb (truthy_found r)); [apply in_or_app; left|]; exact Hin.
  - destruct acc as [|a acc]; simpl in E.
    + injection E as <-. simpl. left; reflexivity.
    + destruct a; simpl in E; discriminate.
Qed.

Lemma array_reduce_keeps_null (l acc acc' : list (option RawGroup)) :
  array_reduce dedup_step l acc = Ok acc' ->
  In None acc \/ In None l -> In None acc'.
Proof.
  revert acc. induction l as [|g l IH]; intros acc H Hnull; simpl in H.
  - injection H as <-. destruct Hnull as [H|[]]; exact H.
  - destruct (dedup_step acc g) as [acc1|] eqn:E; simpl in H; [|discriminate].
    apply (IH acc1 H).
    destruct Hnull as [Hin|[Hg|Hin]].
    + left. apply (dedup_step_keeps_null acc acc1 g E). left; exact Hin.
    + left. apply (dedup_step_keeps_null acc acc1 g E). right; exact Hg.
    + right; exact Hin.
Qed.

Lemma array_map_null (l : list (option RawGroup)) :
  In None l -> array_map group_with_players l = Thrown.
Proof.
  induction l as [|g l IH]; simpl; intros H; [contradiction|].
  destruct g as [g|]; [|reflexivity]. simpl.
  destruct H as [H|H]; [discriminate|]. rewrite (IH H). reflexivity.
Qed.

Lemma groupsWithPlayers_null (ownerGroups : option (list RawGroup))
    (memberGroups : option (list MemberRow)) :
  In None (allGroups ownerGroups memberGroups) ->
  groupsWithPlayers ownerGroups memberGroups = Thrown.
Proof.
  intros H. unfold groupsWithPlayers, uniqueGroups.
  destruct (array_reduce dedup_step (allGroups ownerGroups memberGroups) [])
    as [acc|] eqn:E; simpl; [|reflexivity].
  apply array_map_null.
  apply (array_reduce_keeps_null _ [] acc E). right; exact H.
Qed.

End UniqueGroups.

Lemma fetchUserGroups_stored (be : Backend) (w : World) (userId : jsstring)
    (groups : list Group) :
  be_session be = Session userId ->
  groupsWithPlayers (be_owner_groups be userId) (be_member_groups be userId) =
    Ok groups ->
  userGroups (ui (snd (fetchUserGroups be w))) = groups.
Proof.
  intros Hs Hg. unfold fetchUserGroups, bind, request, lift_res. simpl.
  rewrite Hs. simpl. rewrite Hg. reflexivity.
Qed.

Lemma fetchUserGroups_thrown (be : Backend) (w : World) (userId : jsstring) :
  be_session be = Session userId ->
  groupsWithPlayers (be_owner_groups be userId) (be_member_groups be userId) =
    Thrown ->
  ui (snd (fetchUserGroups be w)) = ui w.
Proof.
  intros Hs Hg. unfold fetchUserGroups, bind, request, lift_res. simpl.
  rewrite Hs. simpl. rewrite Hg. reflexivity.
Qed.

(** What holds of C4: when a session is found and no member row has a
    null group, the stored list has at most one entry per group id and
    holds every group id of the two query results. *)
Lemma fetchUserGroups_merges_and_deduplicates
    (be : Backend) (w : World) (userId : jsstring) :
  be_session be = Session userId ->
  member_groups_present (be_member_groups be userId) ->
  let stored := userGroups (ui (snd (fetchUserGroups be w))) in
  NoDup (map (@g_id) stored)
  /\ (forall i,
        In i (present_ids (allGroups (be_owner_groups be userId)
                                     (be_member_groups be userId)))
        <-> In i (map (@g_id) stored)).
Proof.
  intros Hs Hm. cbv zeta.
  destruct (allGroups_present (be_owner_groups be userId) _ Hm) as [l Hl].
  rewrite (fetchUserGroups_stored be w userId
             (map spread_with_players (fold_left keep_first l [])) Hs).
  2:{ unfold groupsWithPlayers. rewrite Hl. apply groupsWithPlayers_present. }
  rewrite Hl, present_ids_map, map_map. simpl.
  change (fun x : RawGroup => rg_id x) with (@rg_id).
  split.
  - apply fold_keep_first_NoDup. constructor.
  - intros i. rewrite fold_keep_first_ids. simpl. tauto.
Qed.

(** The defect behind C4, in general: a session is found and some
    member row has a null group; then nothing is stored. *)
Lemma fetchUserGroups_null_group_not_stored
    (be : Backend) (w : World) (userId : jsstring) :
  be_session be = Session userId ->
  In None (allGroups (be_owner_groups be userId) (be_member_groups be userId)) ->
  ui (snd (fetchUserGroups be w)) = ui w.
Proof.
  intros Hs Hnull. apply (fetchUserGroups_thrown be w userId Hs).
  apply groupsWithPlayers_null; exact Hnull.
Qed.

(** C4 (the code departs from it).  The owner query answers with the
    group of id 1 and the member query with one row whose embedded group
    is null: reading [id] of null throws inside the reducer, the list is
    never stored, and the group of id 1 is not in the user's groups. *)
Theorem fetchUserGroups_null_member_group_stores_nothing :
  let w' := snd (fetchUserGroups be_null_member_group initialWorld) in
  be_session be_null_member_group = Session (js "u1")
  /\ be_owner_groups be_null_member_group (js "u1") = Some [friends]
  /\ be_member_groups be_null_member_group (js "u1") =
     Some [ {| mr_group_id := 2; mr_groups := None |} ]
  /\ dedup_step [Some friends] None = Thrown
  /\ groupsWithPlayers (Some [friends])
       (Some [ {| mr_group_id := 2; mr_groups := None |} ]) = Thrown
  /\ userGroups (ui w') = []
  /\ (In 1%Z (map (@g_id) (userGroups (ui w'))) -> False).
Proof.
  cbv zeta. repeat split; try (vm_compute; reflexivity).
  vm_compute. tauto.
Qed.

(** * The statements at sample inputs *)

Lemma duplicate_group_name_rejected_witness :
  let w := world_form_filled (js "  FRIENDS ") in
  let w' := run (handleCreateGroup ascii_toLowerCase be_ok) w in
  map (@g_name) (userGroups (ui w)) = [js "Friends"; js "Weekend"]
  /\ ops w' = ops w
  /\ errorMessage (ui w') = MSG_DUPLICATE.
Proof.
  cbv zeta.
  assert (Hdup : exists g,
            In g (userGroups (ui (world_form_filled (js "  FRIENDS "))))
            /\ ascii_toLowerCase (trim (g_name g)) =
               ascii_toLowerCase
                 (trim (groupName (ui (world_form_filled (js "  FRIENDS ")))))).
  { exists (spread_with_players friends). split.
    - vm_compute. left; reflexivity.
    - vm_compute. reflexivity. }
  destruct (duplicate_group_name_rejected ascii_toLowerCase be_ok
              (world_form_filled (js "  FRIENDS ")) Hdup) as [Hops [_ [Hmsg _]]].
  split; [vm_compute; reflexivity|]. split; [exact Hops|].
  apply Hmsg. vm_compute. discriminate.
Defined.

(** C1, as the specification words it, fails in its conclusion: the
    check is against the stored list, not against the groups the user
    belongs to.  First, user u1 owns the group "Friends" (the owner query
    returns it), but the fetch on mount throws on a null member group, so
    the stored list stays empty: typing "Friends" and submitting inserts
    a second group of that name.  Second, with every answer in good
    order, a name created once is created again when typed and submitted
    again, the refetch not having returned the new group. *)
Lemma duplicate_name_created_counterexample :
  let unloaded :=
    execute ascii_toLowerCase
      [ (be_null_member_group, Mount);
        (be_null_member_group, ClickCreateGroupButton);
        (be_null_member_group, TypeGroupName (js "Friends"));
        (be_null_member_group, ClickSubmit) ]
      initialWorld in
  let twice :=
    execute ascii_toLowerCase
      [ (be_ok, Mount);
        (be_ok, ClickCreateGroupButton);
        (be_ok, TypeGroupName (js "Catan night"));
        (be_ok, ClickSubmit);
        (be_ok, ClickCreateGroupButton);
        (be_ok, TypeGroupName (js "Catan night"));
        (be_ok, ClickSubmit) ]
      initialWorld in
  be_session be_null_member_group = Session (js "u1")
  /\ be_owner_groups be_null_member_group (js "u1") = Some [friends]
  /\ rg_name friends = js "Friends"
  /\ filter is_write (ops unloaded) =
     [ Insert T_groups [GroupRow (js "Friends") (js "u1")] ]
  /\ filter is_write (ops twice) =
     [ Insert T_groups [GroupRow (js "Catan night") (js "u1")];
       Insert T_groups [GroupRow (js "Catan night") (js "u1")] ].
Proof.
  cbv zeta. repeat split; vm_compute; reflexivity.
Qed.

Lemma early_failure_writes_nothing_witness :
  let w := world_form_filled (js "Catan night") in
  let w' := run (handleCreateGroup ascii_toLowerCase be_signed_out) w in
  errorMessage (ui w') <> []
  /\ groupName (ui w') = js "Catan night"
  /\ selectedPlayers (ui w') = selectedPlayers (ui w)
  /\ exists new, issued w w' new /\ Forall (fun op => is_write op = false) new.
Proof.
  cbv zeta.
  destruct (early_failure_writes_nothing ascii_toLowerCase be_signed_out
              (world_form_filled (js "Catan night"))) as [Hstop _].
  destruct Hstop as [_ [Hmsg [Hnew [Hname Hsel]]]].
  { right; right; right. reflexivity. }
  split; [exact Hmsg|]. split; [rewrite Hname; vm_compute; reflexivity|].
  split; [exact Hsel | exact Hnew].
Defined.

Lemma create_group_two_step_insert_witness :
  let w := world_form_filled (js "Catan night") in
  let w' := run (handleCreateGroup ascii_toLowerCase be_ok) w in
  exists new,
    issued w w' new
    /\ filter is_write new =
       [ Insert T_groups [GroupRow (js "Catan night") (js "u1")];
         Insert T_group_players
           [GroupPlayerLink 3 (js "p1"); GroupPlayerLink 3 (js "p2")] ].
Proof.
  cbv zeta.
  destruct (create_group_two_step_insert ascii_toLowerCase be_ok
              (world_form_filled (js "Catan night")))
    as [new [Hnew [_ [Hwrites _]]]].
  exists new. split; [exact Hnew|].
  rewrite (Hwrites (js "u1")).
  - vm_compute. reflexivity.
  - unfold stops_early. intros [H|[H|[H|H]]]; vm_compute in H; discriminate.
  - reflexivity.
Defined.

Lemma whitespace_name_passes_empty_check_witness :
  let w := world_form_filled (js "   ") in
  let w' := run (handleCreateGroup ascii_toLowerCase be_ok) w in
  groupName (ui w) = [32%N; 32%N; 32%N]
  /\ (exists new, issued w w' new
                  /\ In (Insert T_groups [GroupRow (groupName (ui w)) (js "u1")]) new)
  /\ errorMessage (ui w') = []
  /\ isModalOpen (ui w') = false.
Proof.
  cbv zeta.
  destruct (whitespace_name_passes_empty_check ascii_toLowerCase be_ok
              (world_form_filled (js "   "))) as [_ Hpass].
  destruct (Hpass (js "u1")) as [Hsent Hdone].
  - vm_compute. repeat constructor.
  - vm_compute. discriminate.
  - reflexivity.
  - vm_compute. repeat constructor; discriminate.
  - reflexivity.
  - split; [vm_compute; reflexivity|]. split; [exact Hsent|].
    eapply Hdone. vm_compute. reflexivity.
Defined.

Lemma handleRemovePlayer_removes_exactly_witness :
  let w := world_form_filled (js "Catan night") in
  map (@p_id) (selectedPlayers (ui w)) = [js "p1"; js "p2"]
  /\ map (@p_id) (selectedPlayers (ui (run (handleRemovePlayer (js "p1")) w))) =
     [js "p2"]
  /\ selectedPlayers (ui (run (handleRemovePlayer (js "p9")) w)) =
     selectedPlayers (ui w).
Proof.
  cbv zeta.
  destruct (handleRemovePlayer_removes_exactly (js "p9")
              (world_form_filled (js "Catan night"))) as [_ [_ [Hid _]]].
  split; [vm_compute; reflexivity|]. split; [vm_compute; reflexivity|].
  apply Hid. vm_compute. intros [H|[H|[]]]; discriminate.
Defined.

Lemma selectedPlayers_ids_distinct_witness :
  let w := world_form_filled (js "Catan night") in
  run (handleAddPlayer alice) w = w
  /\ distinct_ids (selectedPlayers (ui (run (handleAddPlayer alice) w))).
Proof.
  cbv zeta.
  destruct selectedPlayers_ids_distinct as [_ [_ [Hnoop [_ [_ Hreach]]]]].
  split.
  - apply Hnoop. vm_compute. left; reflexivity.
  - rewrite Hnoop; [|vm_compute; left; reflexivity].
    apply (Hreach ascii_toLowerCase).
Defined.

(** * Further properties of fetchUserGroups *)

Section StoredGroups.

Lemma present_groups_map (l : list RawGroup) :
  present_groups (map (@Some RawGroup) l) = l.
Proof.
  induction l as [|g l IH]; simpl; [reflexivity|]. rewrite IH; reflexivity.
Qed.

Lemma present_groups_app (l1 l2 : list (option RawGroup)) :
  present_groups (l1 ++ l2) = present_groups l1 ++ present_groups l2.
Proof.
  induction l1 as [|[g|] l1 IH]; simpl; [reflexivity| |exact IH].
  rewrite IH; reflexivity.
Qed.

Lemma no_null_map_present (l : list (option RawGroup)) :
  ~ In None l -> l = map (@Some RawGroup) (present_groups l).
Proof.
  induction l as [|[g|] l IH]; simpl; intros H; [reflexivity| |].
  - f_equal. apply IH. intros Hin; apply H; right; exact Hin.
  - exfalso. apply H. left; reflexivity.
Qed.

Lemma find_raw_keep_first (i : Z) (acc : list RawGroup) (g : RawGroup) :
  find_raw i (keep_first acc g) =
  match find_raw i acc with
  | Some x => Some x
  | None => if (rg_id g =? i)%Z then Some g else None
  end.
Proof.
  unfold keep_first, find_raw.
  destruct (existsb (fun a => (rg_id a =? rg_id g)%Z) acc) eqn:E.
  - destruct (find (fun a => (rg_id a =? i)%Z) acc) as [x|] eqn:F; [reflexivity|].
    destruct (rg_id g =? i)%Z eqn:Hg; [|reflexivity].
    apply Z.eqb_eq in Hg. apply existsb_exists in E. destruct E as [a [Hin Ha]].
    apply Z.eqb_eq in Ha.
    pose proof (find_none _ _ F a Hin) as Hn. simpl in Hn.
    apply Z.eqb_neq in Hn. congruence.
  - induction acc as [|a acc IH]; simpl in *.
    + reflexivity.
    + apply orb_false_iff in E. destruct E as [_ E].
      destruct (rg_id a =? i)%Z; [reflexivity | exact (IH E)].
Qed.

Lemma find_raw_fold (i : Z) (l acc : list RawGroup) :
  find_raw i (fold_left keep_first l acc) =
  match find_raw i acc with
  | Some x => Some x
  | None => find_raw i l
  end.
Proof.
  revert acc. induction l as [|g l IH]; intros acc; simpl.
  - destruct (find_raw i acc); reflexivity.
  - rewrite IH, find_raw_keep_first.
    destruct (find_raw i acc); [reflexivity|].
    unfold find_raw at 2. simpl. destruct (rg_id g =? i)%Z; reflexivity.
Qed.

Lemma find_group_spread (i : Z) (l : list RawGroup) :
  find_group i (map spread_with_players l) =
  option_map spread_with_players (find_raw i l).
Proof.
  unfold find_group, find_raw.
  induction l as [|g l IH]; simpl; [reflexivity|].
  destruct (rg_id g =? i)%Z; [reflexivity | exact IH].
Qed.

(** The reducer only ever appends to its accumulator. *)
Lemma fold_keep_first_prefix (l acc : list RawGroup) :
  exists tail, fold_left keep_first l acc = acc ++ tail.
Proof.
  revert acc. induction l as [|g l IH]; intros acc; simpl.
  - exists []. symmetry; apply app_nil_r.
  - destruct (IH (keep_first acc g)) as [t Ht]. rewrite Ht.
    unfold keep_first. destruct (existsb _ acc).
    + exists t; reflexivity.
    + exists (g :: t). rewrite <- app_assoc. reflexivity.
Qed.

Lemma fold_keep_first_distinct (l acc : list RawGroup) :
  NoDup (map (@rg_id) (acc ++ l)) -> fold_left keep_first l acc = acc ++ l.
Proof.
  revert acc. induction l as [|g l IH]; intros acc H; simpl.
  - symmetry; apply app_nil_r.
  - assert (Hnew : existsb (fun a => (rg_id a =? rg_id g)%Z) acc = false).
    { apply not_true_is_false. rewrite existsb_rg_id. intros Hin.
      rewrite map_app in H. simpl in H. apply NoDup_remove_2 in H.
      apply H. apply in_or_app. left; exact Hin. }
    unfold keep_first at 2. rewrite Hnew.
    rewrite IH; rewrite <- app_assoc; simpl; [reflexivity | exact H].
Qed.

(** What is stored when the answers can be merged. *)
Lemma groupsWithPlayers_merged (be : Backend) (userId : jsstring) :
  member_groups_present (be_member_groups be userId) ->
  groupsWithPlayers (be_owner_groups be userId) (be_member_groups be userId) =
  Ok (map spread_with_players (fold_left keep_first (merged_groups be userId) [])).
Proof.
  intros Hm. unfold merged_groups.
  destruct (allGroups_present (be_owner_groups be userId) _ Hm) as [l Hl].
  unfold groupsWithPlayers. rewrite Hl, present_groups_map.
  apply groupsWithPlayers_present.
Qed.

(** Whatever can be stored has pairwise distinct ids. *)
Lemma groupsWithPlayers_distinct (ownerGroups : option (list RawGroup))
    (memberGroups : option (list MemberRow)) (groups : list Group) :
  groupsWithPlayers ownerGroups memberGroups = Ok groups ->
  NoDup (map (@g_id) groups).
Proof.
  intros H.
  assert (Hnn : ~ In None (allGroups ownerGroups memberGroups)).
  { intros Hin. rewrite (groupsWithPlayers_null _ _ Hin) in H. discriminate. }
  apply no_null_map_present in Hnn.
  unfold groupsWithPlayers in H. rewrite Hnn, groupsWithPlayers_present in H.
  injection H as <-. rewrite map_map. simpl.
  change (fun x : RawGroup => rg_id x) with (@rg_id).
  apply fold_keep_first_NoDup. constructor.
Qed.

End StoredGroups.

(** X1.  Without a session (an error, or none) fetchUserGroups sends the
    session request only and leaves the whole state, the stored groups
    included, as it was. *)
Theorem fetchUserGroups_without_session (be : Backend) (w : World) :
  be_session be = SessionError \/ be_session be = NoSession ->
  snd (fetchUserGroups be w) = {| ui := ui w; ops := ops w ++ [AuthGetSession] |}.
Proof.
  intros H. unfold fetchUserGroups, bind, request, ret. simpl.
  destruct H as [H|H]; rewrite H; reflexivity.
Qed.

Lemma fetchUserGroups_without_session_witness :
  snd (fetchUserGroups be_signed_out (world_form_filled (js "Catan night"))) =
  {| ui := ui (world_form_filled (js "Catan night"));
     ops := ops (world_form_filled (js "Catan night")) ++ [AuthGetSession] |}.
Proof.
  apply (fetchUserGroups_without_session be_signed_out).
  right. reflexivity.
Defined.

(** X2.  With a session and no null group among the member rows, a
    lookup by id in the stored list gives the first group of that id in
    the merged results (the owner query's copy when both queries return
    it); and when the owner query's groups have distinct ids, they open
    the stored list, in the order they were returned. *)
Theorem fetchUserGroups_keeps_first_copy
    (be : Backend) (w : World) (userId : jsstring) :
  be_session be = Session userId ->
  member_groups_present (be_member_groups be userId) ->
  let stored := userGroups (ui (snd (fetchUserGroups be w))) in
  (forall i, find_group i stored =
             option_map spread_with_players (find_raw i (merged_groups be userId)))
  /\ (forall og, be_owner_groups be userId = Some og ->
        NoDup (map (@rg_id) og) ->
        firstn (List.length og) stored = map spread_with_players og).
Proof.
  intros Hs Hm. cbv zeta.
  rewrite (fetchUserGroups_stored be w userId _ Hs (groupsWithPlayers_merged be userId Hm)).
  split.
  - intros i. rewrite find_group_spread, find_raw_fold. reflexivity.
  - intros og Hog Hnd.
    assert (Hsplit : exists m, merged_groups be userId = og ++ m).
    { unfold merged_groups, allGroups. rewrite Hog.
      exists (present_groups (memberGroupList (be_member_groups be userId))).
      rewrite present_groups_app, present_groups_map. reflexivity. }
    destruct Hsplit as [m Hmg]. rewrite Hmg, fold_left_app.
    rewrite (fold_keep_first_distinct og []) by exact Hnd. simpl app.
    destruct (fold_keep_first_prefix m og) as [t Ht]. rewrite Ht, map_app.
    rewrite <- (length_map spread_with_players og).
    rewrite firstn_app, firstn_all, Nat.sub_diag. simpl. apply app_nil_r.
Qed.

Lemma fetchUserGroups_keeps_first_copy_witness :
  map (@g_id) (userGroups (ui (snd (fetchUserGroups be_ok initialWorld)))) = [1%Z; 2%Z]
  /\ find_group 1 (userGroups (ui (snd (fetchUserGroups be_ok initialWorld)))) =
     Some (spread_with_players friends).
Proof.
  split; [vm_compute; reflexivity|].
  destruct (fetchUserGroups_keeps_first_copy be_ok initialWorld (js "u1") eq_refl)
    as [Hfind _].
  - vm_compute. repeat constructor; discriminate.
  - rewrite Hfind. vm_compute. reflexivity.
Defined.

(** * Further properties of fetchPlayers and of the modal *)

Lemma fetchPlayers_error_run (be : Backend) (query : jsstring) (w : World) :
  be_players be (players_filter query) = PlayersError ->
  snd (fetchPlayers be query w) =
  {| ui := with_loading false (with_loading true (ui w));
     ops := ops w ++ [Select T_players (players_filter query)] |}.
Proof.
  intros Herr.
  unfold fetchPlayers, try_catch_finally, try_catch.
  unfold bind at 1. unfold setLoading at 1, modify at 1.
  unfold bind at 1. unfold bind at 1. unfold request at 1. rewrite Herr.
  reflexivity.
Qed.

Lemma avatar_lookups_shape (data : list Player) :
  Forall (fun op => exists uid, op = Select T_users (FEq (js "id") uid) /\ uid <> [])
         (flat_map avatar_lookup data).
Proof.
  induction data as [|p data IH]; simpl; [constructor|].
  apply Forall_app. split; [|exact IH].
  unfold avatar_lookup. destruct (p_user_id p) as [[|c uid]|]; constructor.
  - exists (c :: uid). split; [reflexivity | discriminate].
  - constructor.
Qed.

(** What every run of [fetchPlayers] does, whatever the answer. *)
Lemma fetchPlayers_frame (be : Backend) (query : jsstring) (w : World) :
  loading (ui (snd (fetchPlayers be query w))) = false
  /\ same_but_players_loading (ui w) (ui (snd (fetchPlayers be query w)))
  /\ exists lookups,
       issued w (snd (fetchPlayers be query w))
              (Select T_players (players_filter query) :: lookups)
       /\ Forall (fun op => exists uid,
                    op = Select T_users (FEq (js "id") uid) /\ uid <> []) lookups.
Proof.
  destruct (be_players be (players_filter query)) as [|data] eqn:E.
  - rewrite (fetchPlayers_error_run be query w E). simpl.
    split; [reflexivity|]. split; [repeat split|].
    exists []. split; [reflexivity | constructor].
  - rewrite (fetchPlayers_run be query w data E). simpl.
    split; [reflexivity|]. split; [repeat split|].
    exists (flat_map avatar_lookup data).
    split; [reflexivity | apply avatar_lookups_shape].
Qed.

(** X3.  When the players query answers with an error, fetchPlayers
    keeps the list of players it had, ends with the loading flag off,
    changes nothing else, and has sent that one select only. *)
Theorem fetchPlayers_error_keeps_players
    (be : Backend) (query : jsstring) (w : World) :
  be_players be (players_filter query) = PlayersError ->
  let w' := snd (fetchPlayers be query w) in
  players (ui w') = players (ui w)
  /\ loading (ui w') = false
  /\ same_but_players_loading (ui w) (ui w')
  /\ issued w w' [Select T_players (players_filter query)].
Proof.
  intros Herr. cbv zeta. rewrite (fetchPlayers_error_run be query w Herr).
  simpl. repeat split.
Qed.

(** X4.  Whatever the backend answers, fetchPlayers ends with the
    loading flag off, changes nothing but the players and that flag, and
    sends first the select on players (unfiltered for the empty query,
    else a case-insensitive match of the name against %query%), then
    only lookups of users rows by a non-empty id. *)
Theorem fetchPlayers_always_stops_loading
    (be : Backend) (query : jsstring) (w : World) :
  let w' := snd (fetchPlayers be query w) in
  loading (ui w') = false
  /\ same_but_players_loading (ui w) (ui w')
  /\ (exists lookups,
        issued w w' (Select T_players (players_filter query) :: lookups)
        /\ Forall (fun op => exists uid,
                     op = Select T_users (FEq (js "id") uid) /\ uid <> []) lookups)
  /\ (query = [] -> players_filter query = NoFilter)
  /\ (query <> [] ->
      players_filter query = FILike (js "name") (js "%" ++ query ++ js "%")).
Proof.
  cbv zeta. destruct (fetchPlayers_frame be query w) as [Hl [Hs Hops]].
  split; [exact Hl|]. split; [exact Hs|]. split; [exact Hops|]. split.
  - intros ->. reflexivity.
  - intros Hne. destruct query; [contradiction | reflexivity].
Qed.

(** X5.  Typing a query in the search box stores it and, when the
    players query answers with a list, replaces the players shown by that
    list with avatars resolved; the selection and the entered name stay
    as they were, also for selected players the answer does not hold. *)
Theorem handleSearchChange_replaces_players
    (be : Backend) (query : jsstring) (w : World) (data : list Player) :
  be_players be (players_filter query) = PlayersData data ->
  let w' := run (handleSearchChange be query) w in
  searchQuery (ui w') = query
  /\ players (ui w') = map (stored_player nonempty_row_avatar be) data
  /\ selectedPlayers (ui w') = selectedPlayers (ui w)
  /\ groupName (ui w') = groupName (ui w)
  /\ errorMessage (ui w') = errorMessage (ui w)
  /\ loading (ui w') = false.
Proof.
  intros Hdata. cbv zeta.
  unfold run, handleSearchChange, bind, setSearchQuery, modify, detached. simpl.
  rewrite (fetchPlayers_run be query _ data Hdata). simpl. repeat split.
Qed.

Lemma handleSearchChange_replaces_players_witness :
  let w := world_form_filled (js "Catan night") in
  let w' := run (handleSearchChange be_ok (js "ali")) w in
  searchQuery (ui w') = js "ali"
  /\ map (@p_id) (selectedPlayers (ui w')) = [js "p1"; js "p2"].
Proof.
  cbv zeta.
  destruct (handleSearchChange_replaces_players be_ok (js "ali")
              (world_form_filled (js "Catan night")) [alice; bob] eq_refl)
    as [Hq [_ [Hsel _]]].
  split; [exact Hq|]. rewrite Hsel. vm_compute. reflexivity.
Defined.

(** X6.  Opening the modal shows it and, when the players query answers
    with a list, loads that list unfiltered; it resets nothing: name,
    search text, selection and error message are those left before. *)
Theorem openModal_loads_all_players
    (be : Backend) (w : World) (data : list Player) :
  be_players be NoFilter = PlayersData data ->
  let w' := run (openModal be) w in
  isModalOpen (ui w') = true
  /\ players (ui w') = map (stored_player nonempty_row_avatar be) data
  /\ groupName (ui w') = groupName (ui w)
  /\ searchQuery (ui w') = searchQuery (ui w)
  /\ selectedPlayers (ui w') = selectedPlayers (ui w)
  /\ errorMessage (ui w') = errorMessage (ui w)
  /\ issued w w' (Select T_players NoFilter :: flat_map avatar_lookup data).
Proof.
  intros Hdata. cbv zeta.
  unfold run, openModal, bind, setIsModalOpen, modify, detached. simpl.
  rewrite (fetchPlayers_run be [] _ data Hdata). simpl. repeat split.
Qed.

Lemma openModal_loads_all_players_witness :
  let w' := run (openModal be_ok) initialWorld in
  isModalOpen (ui w') = true
  /\ map (@p_id) (players (ui w')) = [js "p1"; js "p2"].
Proof.
  cbv zeta.
  destruct (openModal_loads_all_players be_ok initialWorld [alice; bob] eq_refl)
    as [Hopen [Hp _]].
  split; [exact Hopen|]. rewrite Hp. vm_compute. reflexivity.
Defined.

Lemma fetchPlayers_error_keeps_players_witness :
  let be := {| be_session := NoSession;
               be_owner_groups := fun _ => None;
               be_member_groups := fun _ => None;
               be_players := fun _ => PlayersError;
               be_user := fun _ => None;
               be_insert_group := fun _ _ => GroupInsertError;
               be_insert_links := fun _ => true |} in
  let w := world_form_filled (js "Catan night") in
  map (@p_id) (players (ui (snd (fetchPlayers be (js "zz") w)))) = [js "p1"; js "p2"]
  /\ loading (ui (snd (fetchPlayers be (js "zz") w))) = false.
Proof.
  cbv zeta.
  match goal with |- context [fetchPlayers ?be _ _] =>
    destruct (fetchPlayers_error_keeps_players be (js "zz")
                (world_form_filled (js "Catan night")) eq_refl) as [Hp [Hl _]] end.
  split; [rewrite Hp; vm_compute; reflexivity | exact Hl].
Defined.

(** X7.  Closing the modal empties the name, the search text and the
    selection and sends nothing, but keeps the error message (and the
    players): hidden while the modal is closed, the message that was on
    screen is on screen again once the modal is reopened. *)
Theorem closeModal_keeps_error_message (be : Backend) (w : World) :
  let w1 := run (fun _ => closeModal) w in
  let w2 := run (openModal be) w1 in
  isModalOpen (ui w1) = false
  /\ groupName (ui w1) = [] /\ searchQuery (ui w1) = []
  /\ selectedPlayers (ui w1) = []
  /\ errorMessage (ui w1) = errorMessage (ui w)
  /\ players (ui w1) = players (ui w)
  /\ ops w1 = ops w
  /\ shown_error (ui w1) = None
  /\ shown_error (ui w2) = error_paragraph (ui w).
Proof.
  cbv zeta. repeat split.
  unfold run, openModal, bind, setIsModalOpen, modify, detached. simpl.
  destruct (fetchPlayers_frame be []
              {| ui := with_isModalOpen true
                         (ui (snd (closeModal w)));
                 ops := ops (snd (closeModal w)) |})
    as [_ [[Hopen [_ [Herr _]]] _]].
  unfold shown_error, Modal, error_paragraph.
  simpl in Hopen, Herr. rewrite Hopen, Herr. reflexivity.
Qed.

(** * Further properties of the form handlers *)

(** X8.  Typing in the group-name field stores the typed value and
    leaves no error message, whichever message was there; it sends
    nothing and changes nothing else. *)
Theorem onGroupNameChange_clears_error (value : jsstring) (w : World) :
  let w' := run (onGroupNameChange value) w in
  groupName (ui w') = value
  /\ errorMessage (ui w') = []
  /\ shown_error (ui w') = None
  /\ ops w' = ops w
  /\ isModalOpen (ui w') = isModalOpen (ui w)
  /\ searchQuery (ui w') = searchQuery (ui w)
  /\ players (ui w') = players (ui w)
  /\ selectedPlayers (ui w') = selectedPlayers (ui w)
  /\ userGroups (ui w') = userGroups (ui w).
Proof.
  cbv zeta. unfold run, onGroupNameChange, bind, setGroupName, modify.
  unfold shown_error, Modal, error_paragraph.
  destruct (errorMessage (ui w)) as [|c m] eqn:E; simpl; rewrite ?E;
    repeat split; destruct (isModalOpen (ui w)); reflexivity.
Qed.

Lemma existsb_same_id_app (p : Player) (l : list Player) :
  existsb (fun q => str_eqb (p_id q) (p_id p)) (l ++ [p]) = true.
Proof.
  rewrite existsb_app. simpl. rewrite str_eqb_refl.
  rewrite orb_true_r. reflexivity.
Qed.

(** X9.  Adding a player twice is adding them once; an added player is
    put at the end of the selection, which grows by one entry at most,
    and their id is selected afterwards. *)
Theorem handleAddPlayer_idempotent (p : Player) (w : World) :
  let w' := run (handleAddPlayer p) w in
  run (handleAddPlayer p) w' = w'
  /\ (exists tail, selectedPlayers (ui w') = selectedPlayers (ui w) ++ tail
                   /\ (tail = [] \/ tail = [p]))
  /\ In (p_id p) (map (@p_id) (selectedPlayers (ui w')))
  /\ ops w' = ops w.
Proof.
  cbv zeta. unfold run, handleAddPlayer.
  destruct (existsb (fun q => str_eqb (p_id q) (p_id p)) (selectedPlayers (ui w)))
    eqn:E; simpl.
  - rewrite E. simpl. split; [reflexivity|]. split.
    + exists []. rewrite app_nil_r. auto.
    + split; [apply existsb_same_id; exact E | reflexivity].
  - rewrite existsb_same_id_app. simpl. split; [reflexivity|]. split.
    + exists [p]. auto.
    + split; [|reflexivity]. rewrite map_app. apply in_or_app.
      right. left. reflexivity.
Qed.

Lemma existsb_filter_other_id (p : Player) (i : jsstring) (l : list Player) :
  p_id p <> i ->
  existsb (fun q => str_eqb (p_id q) (p_id p))
          (filter (fun q => negb (str_eqb (p_id q) i)) l) =
  existsb (fun q => str_eqb (p_id q) (p_id p)) l.
Proof.
  intros Hne. induction l as [|q l IH]; simpl; [reflexivity|].
  destruct (str_eqb (p_id q) i) eqn:Ei; simpl.
  - rewrite IH. apply str_eqb_eq in Ei.
    assert (Hq : str_eqb (p_id q) (p_id p) = false).
    { apply str_eqb_neq. congruence. }
    rewrite Hq. reflexivity.
  - rewrite IH. reflexivity.
Qed.

Lemma filter_filter_comm (f g : Player -> bool) (l : list Player) :
  filter f (filter g l) = filter g (filter f l).
Proof.
  induction l as [|q l IH]; simpl; [reflexivity|].
  destruct (f q) eqn:Ef, (g q) eqn:Eg; simpl; rewrite ?Ef, ?Eg, IH; reflexivity.
Qed.

Lemma filter_idem (f : Player -> bool) (l : list Player) :
  filter f (filter f l) = filter f l.
Proof.
  induction l as [|q l IH]; simpl; [reflexivity|].
  destruct (f q) eqn:Ef; simpl; rewrite ?Ef, IH; reflexivity.
Qed.

(** X10.  Removing one id and adding a player of another id can be
    done in either order; removing an id twice is removing it once; and
    two removals can be done in either order. *)
Theorem selection_changes_commute (p : Player) (i j : jsstring) (w : World) :
  (p_id p <> i ->
     run (handleRemovePlayer i) (run (handleAddPlayer p) w) =
     run (handleAddPlayer p) (run (handleRemovePlayer i) w))
  /\ run (handleRemovePlayer i) (run (handleRemovePlayer i) w) =
     run (handleRemovePlayer i) w
  /\ run (handleRemovePlayer i) (run (handleRemovePlayer j) w) =
     run (handleRemovePlayer j) (run (handleRemovePlayer i) w).
Proof.
  split; [|split].
  - intros Hne. unfold run, handleRemovePlayer, handleAddPlayer. simpl.
    rewrite (existsb_filter_other_id p i _ Hne).
    destruct (existsb (fun q => str_eqb (p_id q) (p_id p)) (selectedPlayers (ui w)));
      simpl; [reflexivity|].
    rewrite filter_app. simpl.
    assert (Hp : str_eqb (p_id p) i = false) by (apply str_eqb_neq; exact Hne).
    rewrite Hp. reflexivity.
  - unfold run, handleRemovePlayer. simpl. rewrite filter_idem. reflexivity.
  - unfold run, handleRemovePlayer. simpl.
    rewrite filter_filter_comm. reflexivity.
Qed.

Lemma selection_changes_commute_witness :
  let w := world_form_filled (js "Catan night") in
  run (handleRemovePlayer (js "p1")) (run (handleAddPlayer bob) w) =
  run (handleAddPlayer bob) (run (handleRemovePlayer (js "p1")) w).
Proof.
  cbv zeta.
  apply (proj1 (selection_changes_commute bob (js "p1") (js "p1")
                  (world_form_filled (js "Catan night")))).
  vm_compute. discriminate.
Defined.

(** * Further properties of handleCreateGroup *)

(** Past the checks, with a created row given back, the run ends as the
    refetch of the groups from the reset form. *)
Lemma handleCreateGroup_created_run
    (lower : jsstring -> jsstring) (be : Backend) (w : World)
    (ownerId : jsstring) (row : RawGroup) (rows : list RawGroup) :
  ~ stops_early lower be (ui w) ->
  be_session be = Session ownerId ->
  be_insert_group be (groupName (ui w)) ownerId = GroupInsertData (row :: rows) ->
  exists sent,
    run (handleCreateGroup lower be) w =
    snd (fetchUserGroups be {| ui := form_closed (ui w); ops := ops w ++ sent |}).
Proof.
  unfold stops_early. intros Hstop Hs Hi.
  unfold run, handleCreateGroup.
  destruct (groupName (ui w)) as [|c name] eqn:Hname; [tauto|].
  simpl negb. cbv iota.
  destruct (duplicate_name lower (userGroups (ui w)) (c :: name)) eqn:Hdup; [tauto|].
  unfold bind at 1. unfold setErrorMessage at 1, modify at 1.
  unfold bind at 1. unfold request at 1. rewrite Hs.
  unfold try_catch, createGroup_body.
  unfold bind at 1. unfold request at 1. rewrite Hname, Hi.
  destruct (selectedPlayers (ui w)) as [|p sel] eqn:Hsel.
  - simpl. unfold detached; simpl.
    eexists [AuthGetSession; Insert T_groups [GroupRow (c :: name) ownerId]].
    rewrite <- !app_assoc. reflexivity.
  - simpl Nat.ltb. cbv iota.
    eexists [AuthGetSession; Insert T_groups [GroupRow (c :: name) ownerId];
             Insert T_group_players (groupPlayersData (rg_id row) (p :: sel))].
    destruct (be_insert_links be (groupPlayersData (rg_id row) (p :: sel)));
      unfold bind, request, setErrorMessage, closeModal, modify, detached, ret;
      simpl; rewrite <- !app_assoc; reflexivity.
Qed.

(** X11.  After a successful creation (a session, the group insert
    giving back the created row) the form is reset, the modal closed and
    no message left, whether or not the join insert failed; the list of
    groups becomes what the two read queries return at that time, and
    stays as it was when their results cannot be merged.  Nothing is
    added to the list locally: the new group shows only if the backend
    returns it. *)
Theorem create_success_resets_and_refetches
    (lower : jsstring -> jsstring) (be : Backend) (w : World)
    (ownerId : jsstring) (row : RawGroup) (rows : list RawGroup) :
  ~ stops_early lower be (ui w) ->
  be_session be = Session ownerId ->
  be_insert_group be (groupName (ui w)) ownerId = GroupInsertData (row :: rows) ->
  let w' := run (handleCreateGroup lower be) w in
  shown_error (ui w') = None
  /\ (forall groups,
        groupsWithPlayers (be_owner_groups be ownerId) (be_member_groups be ownerId)
          = Ok groups ->
        ui w' = with_userGroups groups (form_closed (ui w)))
  /\ (groupsWithPlayers (be_owner_groups be ownerId) (be_member_groups be ownerId)
        = Thrown ->
      ui w' = form_closed (ui w)).
Proof.
  intros Hstop Hs Hi. cbv zeta.
  destruct (handleCreateGroup_created_run lower be w ownerId row rows Hstop Hs Hi)
    as [sent Hrun].
  rewrite Hrun.
  destruct (fetchUserGroups_effect be {| ui := form_closed (ui w); ops := ops w ++ sent |})
    as [reads [_ [_ Hui]]].
  split; [rewrite Hui; reflexivity|]. split.
  - intros groups Hg. rewrite Hui.
    rewrite (fetchUserGroups_stored be _ ownerId groups Hs Hg). reflexivity.
  - intros Hg.
    exact (fetchUserGroups_thrown be
             {| ui := form_closed (ui w); ops := ops w ++ sent |} ownerId Hs Hg).
Qed.

Lemma create_success_resets_and_refetches_witness :
  let w := world_form_filled (js "Catan night") in
  let w' := run (handleCreateGroup ascii_toLowerCase be_join_fails) w in
  shown_error (ui w') = None
  /\ groupName (ui w') = []
  /\ selectedPlayers (ui w') = []
  /\ map (@g_id) (userGroups (ui w')) = [1%Z; 2%Z].
Proof.
  cbv zeta.
  destruct (create_success_resets_and_refetches ascii_toLowerCase be_join_fails
              (world_form_filled (js "Catan night")) (js "u1")
              {| rg_id := 3; rg_name := js "Catan night";
                 rg_owner_id := Some (js "u1"); rg_created_at := None;
                 rg_group_players := None |} [])
    as [Hshown [Hok _]].
  - unfold stops_early. intros [H|[H|[H|H]]]; vm_compute in H; discriminate.
  - reflexivity.
  - vm_compute. reflexivity.
  - split; [exact Hshown|].
    rewrite (Hok (map spread_with_players [friends; weekend]))
      by (vm_compute; reflexivity).
    repeat split.
Defined.

(** X12.  When the group insert answers with an error, or with no row,
    the run has sent the session request and that insert only (no join
    row, no refetch) and changes nothing but the message, "Failed to
    create group" in the first case and "An unexpected error occurred" in
    the second: name, selection and modal are as the user left them. *)
Theorem create_failure_keeps_form
    (lower : jsstring -> jsstring) (be : Backend) (w : World) (ownerId : jsstring) :
  ~ stops_early lower be (ui w) ->
  be_session be = Session ownerId ->
  (be_insert_group be (groupName (ui w)) ownerId = GroupInsertError ->
   run (handleCreateGroup lower be) w =
   {| ui := with_errorMessage MSG_CREATE_FAILED (ui w);
      ops := ops w ++ [AuthGetSession;
                       Insert T_groups [GroupRow (groupName (ui w)) ownerId]] |})
  /\ (be_insert_group be (groupName (ui w)) ownerId = GroupInsertData [] ->
      run (handleCreateGroup lower be) w =
      {| ui := with_errorMessage MSG_UNEXPECTED (ui w);
         ops := ops w ++ [AuthGetSession;
                          Insert T_groups [GroupRow (groupName (ui w)) ownerId]] |}).
Proof.
  unfold stops_early. intros Hstop Hs.
  split; intros Hi;
    destruct (handleCreateGroup_outcome lower be w)
      as [Hn Hw | Hn Hd Hw | Hn Hd Hs' Hw | Hn Hd Hs' Hw | o Hn Hd Hs' Hi' Hw
          | o Hn Hd Hs' Hi' Hw | o r rs rd Hn Hd Hs' Hi' Hr Hui Hops];
    try tauto; try congruence;
    (assert (o = ownerId) by congruence; subst o); congruence.
Qed.

Lemma create_failure_keeps_form_witness :
  let be := {| be_session := Session (js "u1");
               be_owner_groups := fun _ => None;
               be_member_groups := fun _ => None;
               be_players := fun _ => PlayersError;
               be_user := fun _ => None;
               be_insert_group := fun _ _ => GroupInsertError;
               be_insert_links := fun _ => false |} in
  let w := world_form_filled (js "Catan night") in
  let w' := run (handleCreateGroup ascii_toLowerCase be) w in
  errorMessage (ui w') = MSG_CREATE_FAILED
  /\ groupName (ui w') = js "Catan night"
  /\ selectedPlayers (ui w') = selectedPlayers (ui w).
Proof.
  cbv zeta.
  match goal with |- context [handleCreateGroup _ ?be] =>
    destruct (create_failure_keeps_form ascii_toLowerCase be
                (world_form_filled (js "Catan night")) (js "u1")) as [Herr _] end.
  - unfold stops_early. intros [H|[H|[H|H]]]; vm_compute in H; discriminate.
  - reflexivity.
  - rewrite Herr by reflexivity. simpl. split; [reflexivity|].
    split; [vm_compute|]; reflexivity.
Defined.

Lemma fetchUserGroups_without_session_run (be : Backend) (w : World) :
  be_session be = SessionError \/ be_session be = NoSession ->
  ui (snd (fetchUserGroups be w)) = ui w.
Proof.
  intros H. unfold fetchUserGroups, bind, request, ret. simpl.
  destruct H as [H|H]; rewrite H; reflexivity.
Qed.

(** * Further invariants of executions *)

Section ExecutionInvariants.

Lemma gd_request A (op : BackendOp) (r : A) :
  preserves groups_distinct (request op r).
Proof. intros w H; exact H. Qed.

Lemma gd_modify (f : UiState -> UiState) :
  (forall s, userGroups (f s) = userGroups s) ->
  preserves groups_distinct (modify f).
Proof. intros Hf w H. unfold groups_distinct in *; simpl. rewrite Hf; exact H. Qed.

Lemma gd_fetchUserGroups (be : Backend) :
  preserves groups_distinct (fetchUserGroups be).
Proof.
  intros w H. unfold groups_distinct in *.
  destruct (be_session be) as [| |userId] eqn:Hs.
  - rewrite (fetchUserGroups_without_session_run be w); auto.
  - rewrite (fetchUserGroups_without_session_run be w); auto.
  - destruct (groupsWithPlayers (be_owner_groups be userId)
                (be_member_groups be userId)) as [groups|] eqn:Hg.
    + rewrite (fetchUserGroups_stored be w userId groups Hs Hg).
      apply (groupsWithPlayers_distinct _ _ _ Hg).
    + rewrite (fetchUserGroups_thrown be w userId Hs Hg). exact H.
Qed.

#[local] Hint Resolve gd_request gd_fetchUserGroups : handlers.
#[local] Hint Extern 1 (preserves groups_distinct (_ _)) =>
  (apply gd_modify; reflexivity) : handlers.

Lemma gd_fetchPlayers (be : Backend) (q : jsstring) :
  preserves groups_distinct (fetchPlayers be q).
Proof. unfold fetchPlayers, resolve_avatar. preserve. Qed.

Lemma gd_closeModal : preserves groups_distinct closeModal.
Proof. unfold closeModal. preserve. Qed.

#[local] Hint Resolve gd_fetchPlayers gd_closeModal : handlers.

Lemma gd_step lower (w : World) (x : Backend * Event) :
  groups_distinct w -> groups_distinct (step lower w x).
Proof.
  destruct x as [be e]. unfold step, run; simpl fst; simpl snd.
  generalize (ui w) as snap. intros snap. revert w.
  change (preserves groups_distinct (handler_of lower be e snap)).
  destruct e; simpl handler_of;
    unfold openModal, onGroupNameChange, handleSearchChange, handleAddPlayer,
      handleRemovePlayer, handleCreateGroup, createGroup_body;
    preserve.
Qed.

Lemma iwf_request_read A (op : BackendOp) (r : A) :
  is_read op = true -> preserves inserts_well_formed (request op r).
Proof.
  intros Hop w H. unfold inserts_well_formed in *; simpl.
  apply Forall_app; split; [exact H|]. constructor; [|constructor].
  destruct op; try discriminate; exact I.
Qed.

Lemma iwf_modify (f : UiState -> UiState) :
  preserves inserts_well_formed (modify f).
Proof. intros w H; exact H. Qed.

#[local] Hint Extern 1 (preserves inserts_well_formed (request _ _)) =>
  (apply iwf_request_read; reflexivity) : handlers.
#[local] Hint Extern 1 (preserves inserts_well_formed _) =>
  (apply iwf_modify) : handlers.

Lemma iwf_fetchUserGroups (be : Backend) :
  preserves inserts_well_formed (fetchUserGroups be).
Proof. unfold fetchUserGroups. preserve. Qed.

Lemma iwf_fetchPlayers (be : Backend) (q : jsstring) :
  preserves inserts_well_formed (fetchPlayers be q).
Proof. unfold fetchPlayers, resolve_avatar. preserve. Qed.

Lemma reads_well_formed (reads : list BackendOp) :
  Forall (fun op => is_read op = true) reads -> Forall well_formed_insert reads.
Proof.
  intros H. eapply Forall_impl; [|exact H].
  intros op Hop. destruct op; try discriminate; exact I.
Qed.

Lemma link_inserts_well_formed (groupId : Z) (selected : list Player) :
  distinct_ids selected ->
  Forall well_formed_insert (link_inserts groupId selected).
Proof.
  intros Hd. destruct selected as [|p sel]; simpl; [constructor|].
  constructor; [|constructor]. simpl. split; [discriminate|].
  exists groupId, (map (@p_id) (p :: sel)). split; [|exact Hd].
  unfold groupPlayersData. rewrite map_map. reflexivity.
Qed.

(** The inserts of one run of [handleCreateGroup] from a selection of
    distinct ids. *)
Lemma iwf_handleCreateGroup lower (be : Backend) (w : World) :
  selection_distinct w -> inserts_well_formed w ->
  inserts_well_formed (run (handleCreateGroup lower be) w).
Proof.
  unfold inserts_well_formed. intros Hsel Hw.
  assert (Hgroup : forall o, groupName (ui w) <> [] ->
            well_formed_insert (Insert T_groups [GroupRow (groupName (ui w)) o])).
  { intros o Hn. simpl. exists (groupName (ui w)), o. split; [reflexivity | exact Hn]. }
  destruct (handleCreateGroup_outcome lower be w)
    as [Hn Hr | Hn Hd Hr | Hn Hd Hs Hr | Hn Hd Hs Hr | o Hn Hd Hs Hi Hr
        | o Hn Hd Hs Hi Hr | o r rs rd Hn Hd Hs Hi Hrd Hui Hops].
  - rewrite Hr. exact Hw.
  - rewrite Hr. exact Hw.
  - rewrite Hr. simpl. apply Forall_app; split; [exact Hw|].
    constructor; [exact I | constructor].
  - rewrite Hr. simpl. apply Forall_app; split; [exact Hw|].
    constructor; [exact I | constructor].
  - rewrite Hr. simpl ops. apply Forall_app; split; [exact Hw|].
    constructor; [exact I|]. constructor; [apply Hgroup; exact Hn | constructor].
  - rewrite Hr. simpl ops. apply Forall_app; split; [exact Hw|].
    constructor; [exact I|]. constructor; [apply Hgroup; exact Hn | constructor].
  - rewrite Hops. apply Forall_app; split; [exact Hw|].
    constructor; [exact I|]. constructor; [apply Hgroup; exact Hn|].
    apply Forall_app; split.
    + apply link_inserts_well_formed. exact Hsel.
    + apply reads_well_formed. exact Hrd.
Qed.

Lemma iwf_other_events lower (be : Backend) (e : Event) (snap : UiState) :
  e <> ClickSubmit -> preserves inserts_well_formed (handler_of lower be e snap).
Proof.
  intros He. destruct e; try contradiction; simpl handler_of;
    unfold openModal, closeModal, onGroupNameChange, handleSearchChange,
      handleAddPlayer, handleRemovePlayer;
    preserve; auto using iwf_fetchUserGroups, iwf_fetchPlayers.
Qed.

Lemma iwf_step lower (w : World) (x : Backend * Event) :
  selection_distinct w -> inserts_well_formed w ->
  inserts_well_formed (step lower w x).
Proof.
  destruct x as [be e]. intros Hsel Hw.
  destruct e;
    try (apply (iwf_other_events lower be _ (ui w)); [discriminate | exact Hw]).
  apply iwf_handleCreateGroup; assumption.
Qed.

Lemma invariants_execute lower (trace : list (Backend * Event)) (w : World) :
  selection_distinct w /\ inserts_well_formed w /\ groups_distinct w ->
  selection_distinct (execute lower trace w)
  /\ inserts_well_formed (execute lower trace w)
  /\ groups_distinct (execute lower trace w).
Proof.
  revert w. induction trace as [|x trace IH]; intros w H; simpl; [exact H|].
  destruct H as [Hs [Hi Hg]]. apply IH. split; [|split].
  - apply step_keeps_distinct; exact Hs.
  - apply iwf_step; assumption.
  - apply gd_step; exact Hg.
Qed.

End ExecutionInvariants.

(** X13.  In every execution of the component, every insert sent is
    either one row into groups with a non-empty name, or one or more rows
    into the join table, all of one group and of pairwise distinct
    players; nothing is ever inserted into the players or users
    tables. *)
Theorem inserts_always_well_formed
    (lower : jsstring -> jsstring) (trace : list (Backend * Event)) :
  Forall well_formed_insert (ops (execute lower trace initialWorld)).
Proof.
  apply (invariants_execute lower trace initialWorld).
  split; [constructor|]. split; constructor.
Qed.

(** X14.  In every execution of the component, whatever the backend
    answers (null groups included), the stored list of groups has
    pairwise distinct ids. *)
Theorem userGroups_ids_always_distinct
    (lower : jsstring -> jsstring) (trace : list (Backend * Event)) :
  NoDup (map (@g_id) (userGroups (ui (execute lower trace initialWorld)))).
Proof.
  apply (invariants_execute lower trace initialWorld).
  split; [constructor|]. split; constructor.
Qed.

(** * Names that differ by surrounding whitespace *)

Lemma trimStart_skip (a t : jsstring) :
  whitespace_only a -> trimStart (a ++ t) = trimStart t.
Proof.
  induction 1 as [|c a Hc _ IH]; simpl; [reflexivity|]. rewrite Hc. exact IH.
Qed.

Lemma trimStart_app (s b : jsstring) :
  trimStart (s ++ b) =
  match trimStart s with
  | [] => trimStart b
  | c :: t => (c :: t) ++ b
  end.
Proof.
  induction s as [|c s IH]; simpl; [reflexivity|].
  destruct (is_js_whitespace c); [exact IH | reflexivity].
Qed.

Lemma trimEnd_skip (t b : jsstring) :
  whitespace_only b -> trimEnd (t ++ b) = trimEnd t.
Proof.
  intros Hb. unfold trimEnd. rewrite rev_app_distr, trimStart_skip; [reflexivity|].
  unfold whitespace_only. apply Forall_rev. exact Hb.
Qed.

Lemma trim_padded (a s b : jsstring) :
  whitespace_only a -> whitespace_only b -> trim (a ++ s ++ b) = trim s.
Proof.
  intros Ha Hb. unfold trim. rewrite (trimStart_skip a (s ++ b) Ha), trimStart_app.
  destruct (trimStart s) as [|c t].
  - rewrite (trimStart_whitespace b Hb). reflexivity.
  - apply trimEnd_skip. exact Hb.
Qed.

(** X15.  A name that is the name of one of the user's groups with
    whitespace put before or after it is refused as a duplicate: the
    duplicate-name message is set and nothing is sent. *)
Theorem padded_duplicate_name_rejected
    (lower : jsstring -> jsstring) (be : Backend) (w : World)
    (g : Group) (a b : jsstring) :
  In g (userGroups (ui w)) ->
  whitespace_only a -> whitespace_only b ->
  groupName (ui w) = a ++ g_name g ++ b ->
  groupName (ui w) <> [] ->
  run (handleCreateGroup lower be) w =
  {| ui := with_errorMessage MSG_DUPLICATE (ui w); ops := ops w |}.
Proof.
  intros Hin Ha Hb Hname Hne.
  assert (Hdup : duplicate_name lower (userGroups (ui w)) (groupName (ui w)) = true).
  { apply duplicate_name_iff. exists g. split; [exact Hin|].
    rewrite Hname, (trim_padded a (g_name g) b Ha Hb). reflexivity. }
  destruct (handleCreateGroup_outcome lower be w)
    as [Hn Hr | Hn Hd Hr | Hn Hd Hs Hr | Hn Hd Hs Hr | o Hn Hd Hs Hi Hr
        | o Hn Hd Hs Hi Hr | o r rs rd Hn Hd Hs Hi Hrd Hui Hops];
    congruence.
Qed.

Lemma padded_duplicate_name_rejected_witness :
  let w := world_form_filled (js "  Friends ") in
  run (handleCreateGroup ascii_toLowerCase be_ok) w =
  {| ui := with_errorMessage MSG_DUPLICATE (ui w); ops := ops w |}.
Proof.
  cbv zeta.
  apply (padded_duplicate_name_rejected ascii_toLowerCase be_ok
           (world_form_filled (js "  Friends ")) (spread_with_players friends)
           (js "  ") (js " ")).
  - vm_compute. left; reflexivity.
  - vm_compute. repeat constructor.
  - vm_compute. repeat constructor.
  - vm_compute. reflexivity.
  - vm_compute. discriminate.
Defined.

(** * Which events write *)

Section ReadsOnly.

Variable before : list BackendOp.

Lemma ors_request_read A (op : BackendOp) (r : A) :
  is_read op = true -> preserves (only_reads_since before) (request op r).
Proof.
  intros Hop w [new [Hw Hr]]. exists (new ++ [op]). simpl. split.
  - rewrite Hw, app_assoc. reflexivity.
  - apply Forall_app. split; [exact Hr | repeat constructor; exact Hop].
Qed.

Lemma ors_modify (f : UiState -> UiState) :
  preserves (only_reads_since before) (modify f).
Proof. intros w H; exact H. Qed.

#[local] Hint Extern 1 (preserves (only_reads_since _) (request _ _)) =>
  (apply ors_request_read; reflexivity) : handlers.
#[local] Hint Extern 1 (preserves (only_reads_since _) _) =>
  (apply ors_modify) : handlers.

Lemma ors_fetchUserGroups (be : Backend) :
  preserves (only_reads_since before) (fetchUserGroups be).
Proof. unfold fetchUserGroups. preserve. Qed.

Lemma ors_fetchPlayers (be : Backend) (q : jsstring) :
  preserves (only_reads_since before) (fetchPlayers be q).
Proof. unfold fetchPlayers, resolve_avatar. preserve. Qed.

Lemma ors_other_events lower (be : Backend) (e : Event) (snap : UiState) :
  e <> ClickSubmit ->
  preserves (only_reads_since before) (handler_of lower be e snap).
Proof.
  intros He. destruct e; try contradiction; simpl handler_of;
    unfold openModal, closeModal, onGroupNameChange, handleSearchChange,
      handleAddPlayer, handleRemovePlayer;
    preserve; auto using ors_fetchUserGroups, ors_fetchPlayers.
Qed.

End ReadsOnly.

(** X16.  Only submitting the form writes: the mount effect, opening
    and closing the modal, typing a name or a search, adding and removing
    a player send reads at most; typing a name, adding, removing and
    closing send nothing at all. *)
Theorem only_submit_writes
    (lower : jsstring -> jsstring) (be : Backend) (e : Event) (w : World) :
  e <> ClickSubmit ->
  (exists new, issued w (step lower w (be, e)) new
               /\ Forall (fun op => is_read op = true) new)
  /\ (match e with
      | ClickCancel | TypeGroupName _ | ClickPlayer _ | ClickRemove _ =>
          ops (step lower w (be, e)) = ops w
      | _ => True
      end).
Proof.
  intros He. split.
  - apply (ors_other_events (ops w) lower be e (ui w) He w).
    exists []. split; [symmetry; apply app_nil_r | constructor].
  - destruct e; try exact I; unfold step, run; simpl fst; simpl snd;
      simpl handler_of.
    + reflexivity.
    + unfold onGroupNameChange, bind, setGroupName, modify.
      destruct (truthy_str (errorMessage (ui w))); reflexivity.
    + unfold handleAddPlayer. destruct (negb _); reflexivity.
    + reflexivity.
Qed.

Lemma only_submit_writes_witness :
  exists new,
    issued initialWorld (step ascii_toLowerCase initialWorld (be_ok, Mount)) new
    /\ Forall (fun op => is_read op = true) new.
Proof.
  apply (only_submit_writes ascii_toLowerCase be_ok Mount initialWorld).
  discriminate.
Defined.

(** * One failed read query *)

(** X17.  With a session, fetchUserGroups sends the session request,
    the owner query and the member query, both filtered by the session
    user's id, whatever they answer.  When the owner query answers with
    no data and no member row has a null group, the groups of the member
    rows are stored all the same; when the member query answers with no
    data, the groups of the owner query are. *)
Theorem fetchUserGroups_one_query_failed
    (be : Backend) (w : World) (userId : jsstring) :
  be_session be = Session userId ->
  let w' := snd (fetchUserGroups be w) in
  issued w w' [ AuthGetSession;
                Select T_groups (FEq (js "owner_id") userId);
                Select T_group_players (FEq (js "player_id") userId) ]
  /\ (forall rows,
        be_owner_groups be userId = None ->
        be_member_groups be userId = Some rows ->
        member_groups_present (Some rows) ->
        forall i, find_group i (userGroups (ui w')) =
                  option_map spread_with_players
                    (find_raw i (present_groups (map (@mr_groups) rows))))
  /\ (forall og,
        be_owner_groups be userId = Some og ->
        be_member_groups be userId = None ->
        forall i, find_group i (userGroups (ui w')) =
                  option_map spread_with_players (find_raw i og)).
Proof.
  intros Hs. cbv zeta. split; [|split].
  - unfold issued, fetchUserGroups, bind, request, lift_res, setUserGroups,
      modify. simpl. rewrite Hs. simpl.
    destruct (groupsWithPlayers _ _); simpl; rewrite <- !app_assoc; reflexivity.
  - intros rows Ho Hm Hp i.
    assert (Hpres : member_groups_present (be_member_groups be userId))
      by (rewrite Hm; exact Hp).
    rewrite (fetchUserGroups_stored be w userId _ Hs
               (groupsWithPlayers_merged be userId Hpres)).
    rewrite find_group_spread, find_raw_fold. simpl.
    unfold merged_groups, allGroups. rewrite Ho, Hm. reflexivity.
  - intros og Ho Hm i.
    assert (Hpres : member_groups_present (be_member_groups be userId))
      by (rewrite Hm; exact I).
    rewrite (fetchUserGroups_stored be w userId _ Hs
               (groupsWithPlayers_merged be userId Hpres)).
    rewrite find_group_spread, find_raw_fold. simpl.
    unfold merged_groups, allGroups. rewrite Ho, Hm. simpl.
    rewrite app_nil_r, present_groups_map. reflexivity.
Qed.

Lemma fetchUserGroups_one_query_failed_witness :
  let be := {| be_session := Session (js "u1");
               be_owner_groups := fun _ => None;
               be_member_groups := fun _ =>
                 Some [ {| mr_group_id := 2; mr_groups := Some weekend |} ];
               be_players := fun _ => PlayersError;
               be_user := fun _ => None;
               be_insert_group := fun _ _ => GroupInsertError;
               be_insert_links := fun _ => false |} in
  find_group 2 (userGroups (ui (snd (fetchUserGroups be initialWorld)))) =
  Some (spread_with_players weekend).
Proof.
  cbv zeta.
  match goal with |- context [fetchUserGroups ?be _] =>
    destruct (fetchUserGroups_one_query_failed be initialWorld (js "u1") eq_refl)
      as [_ [Hmember _]] end.
  rewrite (Hmember [ {| mr_group_id := 2; mr_groups := Some weekend |} ]
             eq_refl eq_refl).
  - vm_compute. reflexivity.
  - simpl. repeat constructor. discriminate.
Defined.

(** * The duplicate check against a list that was not refreshed *)

Lemma world_eq (a b : World) : ui a = ui b -> ops a = ops b -> a = b.
Proof. destruct a, b; simpl; intros -> ->; reflexivity. Qed.

(** The whole world after a successful creation whose refetch stores
    [groups]. *)
Lemma created_world
    (lower : jsstring -> jsstring) (be : Backend) (w : World)
    (ownerId : jsstring) (row : RawGroup) (rows : list RawGroup)
    (groups : list Group) :
  ~ stops_early lower be (ui w) ->
  be_session be = Session ownerId ->
  be_insert_group be (groupName (ui w)) ownerId = GroupInsertData (row :: rows) ->
  groupsWithPlayers (be_owner_groups be ownerId) (be_member_groups be ownerId)
    = Ok groups ->
  exists reads,
    Forall (fun op => is_read op = true) reads
    /\ run (handleCreateGroup lower be) w =
       {| ui := with_userGroups groups (form_closed (ui w));
          ops := ops w ++ [AuthGetSession;
                           Insert T_groups [GroupRow (groupName (ui w)) ownerId]]
                       ++ link_inserts (rg_id row) (selectedPlayers (ui w))
                       ++ reads |}.
Proof.
  intros Hstop Hs Hi Hg.
  destruct (handleCreateGroup_created_run lower be w ownerId row rows Hstop Hs Hi)
    as [sent Hrun].
  assert (Hgroups : userGroups (ui (run (handleCreateGroup lower be) w)) = groups).
  { rewrite Hrun. apply (fetchUserGroups_stored be _ ownerId groups Hs Hg). }
  unfold stops_early in Hstop.
  destruct (handleCreateGroup_outcome lower be w)
    as [Hn Hr | Hn Hd Hr | Hn Hd Hs' Hr | Hn Hd Hs' Hr | o Hn Hd Hs' Hi' Hr
        | o Hn Hd Hs' Hi' Hr | o r rs rd Hn Hd Hs' Hi' Hrd Hui Hops];
    try tauto; try congruence.
  assert (o = ownerId) by congruence; subst o.
  assert (r = row) by congruence; subst r.
  exists rd. split; [exact Hrd|].
  apply world_eq; simpl; [rewrite Hui, Hgroups; reflexivity | exact Hops].
Qed.

(** X18.  The duplicate check looks at the stored list only.  When a
    creation succeeds but the refetch that follows does not return a
    group of that name, typing the same name again and submitting sends
    a second insert of a groups row with the same name and owner. *)
Theorem same_name_inserted_twice_when_not_refetched
    (lower : jsstring -> jsstring) (be : Backend) (w : World)
    (ownerId : jsstring) (row : RawGroup) (rows : list RawGroup)
    (groups : list Group) :
  ~ stops_early lower be (ui w) ->
  be_session be = Session ownerId ->
  be_insert_group be (groupName (ui w)) ownerId = GroupInsertData (row :: rows) ->
  groupsWithPlayers (be_owner_groups be ownerId) (be_member_groups be ownerId)
    = Ok groups ->
  duplicate_name lower groups (groupName (ui w)) = false ->
  let name := groupName (ui w) in
  let w' := execute lower
              [(be, ClickSubmit); (be, TypeGroupName name); (be, ClickSubmit)] w in
  exists new,
    issued w w' new
    /\ filter is_write new =
       two_step_writes name ownerId (GroupInsertData (row :: rows))
                       (selectedPlayers (ui w))
       ++ [Insert T_groups [GroupRow name ownerId]].
Proof.
  intros Hstop Hs Hi Hg Hdup. cbv zeta.
  assert (Hne : groupName (ui w) <> []) by (unfold stops_early in Hstop; tauto).
  set (w1 := run (handleCreateGroup lower be) w).
  set (w2 := run (onGroupNameChange (groupName (ui w))) w1).
  change (execute lower
            [(be, ClickSubmit); (be, TypeGroupName (groupName (ui w)));
             (be, ClickSubmit)] w)
    with (run (handleCreateGroup lower be) w2).
  destruct (created_world lower be w ownerId row rows groups Hstop Hs Hi Hg)
    as [reads1 [Hr1 Hw1]].
  fold w1 in Hw1.
  assert (Hw2 : w2 = {| ui := with_groupName (groupName (ui w))
                                (with_userGroups groups (form_closed (ui w)));
                        ops := ops w1 |}).
  { unfold w2, run, onGroupNameChange, bind, setGroupName, modify.
    rewrite Hw1. reflexivity. }
  assert (Hname2 : groupName (ui w2) = groupName (ui w))
    by (rewrite Hw2; reflexivity).
  assert (Hsel2 : selectedPlayers (ui w2) = []) by (rewrite Hw2; reflexivity).
  assert (Hstop2 : ~ stops_early lower be (ui w2)).
  { unfold stops_early. rewrite Hname2.
    replace (userGroups (ui w2)) with groups by (rewrite Hw2; reflexivity).
    intros [H|[H|[H|H]]]; congruence. }
  assert (Hi2 : be_insert_group be (groupName (ui w2)) ownerId =
                GroupInsertData (row :: rows)) by (rewrite Hname2; exact Hi).
  destruct (created_world lower be w2 ownerId row rows groups Hstop2 Hs Hi2 Hg)
    as [reads2 [Hr2 Hw3]].
  rewrite Hw3, Hname2, Hsel2. simpl link_inserts.
  replace (ops w2) with (ops w1) by (rewrite Hw2; reflexivity).
  rewrite Hw1. simpl ops.
  eexists. split.
  - unfold issued. simpl. rewrite <- !app_assoc. reflexivity.
  - simpl. rewrite !filter_app, (filter_write_reads reads1 Hr1). simpl.
    rewrite (filter_write_reads reads2 Hr2).
    unfold two_step_writes, link_inserts, groupPlayersData.
    destruct (selectedPlayers (ui w)); reflexivity.
Qed.

Lemma same_name_inserted_twice_when_not_refetched_witness :
  let w := world_form_filled (js "Catan night") in
  let w' := execute ascii_toLowerCase
              [(be_ok, ClickSubmit); (be_ok, TypeGroupName (js "Catan night"));
               (be_ok, ClickSubmit)] w in
  exists new,
    issued w w' new
    /\ filter is_write new =
       [ Insert T_groups [GroupRow (js "Catan night") (js "u1")];
         Insert T_group_players
           [GroupPlayerLink 3 (js "p1"); GroupPlayerLink 3 (js "p2")];
         Insert T_groups [GroupRow (js "Catan night") (js "u1")] ].
Proof.
  cbv zeta.
  destruct (same_name_inserted_twice_when_not_refetched ascii_toLowerCase be_ok
              (world_form_filled (js "Catan night")) (js "u1")
              {| rg_id := 3; rg_name := js "Catan night";
                 rg_owner_id := Some (js "u1"); rg_created_at := None;
                 rg_group_players := None |} []
              (map spread_with_players [friends; weekend]))
    as [new [Hnew Hwrites]].
  - unfold stops_early. intros [H|[H|[H|H]]]; vm_compute in H; discriminate.
  - reflexivity.
  - vm_compute. reflexivity.
  - vm_compute. reflexivity.
  - vm_compute. reflexivity.
  - exists new. split; [exact Hnew|]. rewrite Hwrites. vm_compute. reflexivity.
Defined.

(** * A null group among the results *)

(** X19.  With a session, when the merged results hold a null group
    (a member row whose embedded group is null), fetchUserGroups has sent
    its three reads and then throws: nothing is stored and the whole
    state is as it was, the groups of the owner query not shown. *)
Theorem fetchUserGroups_throws_on_null_group
    (be : Backend) (w : World) (userId : jsstring) :
  be_session be = Session userId ->
  In None (allGroups (be_owner_groups be userId) (be_member_groups be userId)) ->
  fetchUserGroups be w =
  (Thrown,
   {| ui := ui w;
      ops := ops w ++ [ AuthGetSession;
                        Select T_groups (FEq (js "owner_id") userId);
                        Select T_group_players (FEq (js "player_id") userId) ] |}).
Proof.
  intros Hs Hnull.
  unfold fetchUserGroups, bind, request, lift_res. simpl. rewrite Hs. simpl.
  rewrite (groupsWithPlayers_null _ _ Hnull). rewrite <- !app_assoc. reflexivity.
Qed.

Lemma fetchUserGroups_throws_on_null_group_witness :
  fst (fetchUserGroups be_null_member_group initialWorld) = Thrown
  /\ ui (snd (fetchUserGroups be_null_member_group initialWorld)) = initialState.
Proof.
  rewrite (fetchUserGroups_throws_on_null_group be_null_member_group initialWorld
             (js "u1") eq_refl).
  - split; reflexivity.
  - vm_compute. right; left; reflexivity.
Defined.
